(** * Onboarding checklist bot: progress store, scoped merge and home view

    A shallow embedding of [app.py]: the static task catalog, the SQLite
    table [onboarding_progress] as a finite map keyed by
    [(user_id, task_id)], the three store operations, the group-toggle
    handler with its merge, and the Block Kit home view. *)

From Stdlib Require Import ZArith Ascii String.
From stdpp Require Import gmap strings list fin_maps pretty.

Local Open Scope string_scope.
Local Open Scope list_scope.

(** ** Strings

    [str.lower] on the ASCII range, and [str.replace(old, new, 1)]. *)

Definition lower_ascii (c : ascii) : ascii :=
  let n := Ascii.N_of_ascii c in
  if (65 <=? n)%N && (n <=? 90)%N then Ascii.ascii_of_N (n + 32) else c.

Fixpoint lower (s : string) : string :=
  match s with
  | EmptyString => EmptyString
  | String c s' => String (lower_ascii c) (lower s')
  end.

(** [strip_prefix p s] is [Some r] when [s = p ++ r]. *)
Fixpoint strip_prefix (p s : string) : option string :=
  match p, s with
  | EmptyString, _ => Some s
  | String a p', String b s' =>
      if decide (a = b) then strip_prefix p' s' else None
  | String _ _, EmptyString => None
  end.

(** [s.replace(old, new, 1)]: the leftmost occurrence of [old] is replaced. *)
Fixpoint replace_first (old new s : string) : string :=
  match strip_prefix old s with
  | Some rest => new +:+ rest
  | None =>
      match s with
      | EmptyString => EmptyString
      | String c s' => String c (replace_first old new s')
      end
  end.

(** ** Data model *)

(** An entry of [TASKS]. *)
Record Task := mkTask { id : string; label : string; group : string }.

(** The constant dict [RESOURCES], read only through literal keys. *)
Record Resources := mkResources {
  handbook_url : string;
  brand_center_url : string;
  pd_recordings_url : string;
  staff_directory_url : string;
  all_team_channel : string;
  announcements_channel : string;
  admin_email : string
}.

(** The non-key columns of a row of [onboarding_progress]; [done] is an
    SQL INTEGER. *)
Record Row := mkRow { done : Z; updated_at : string }.

#[global] Instance Row_eq_dec : EqDecision Row.
Proof. solve_decision. Defined.

(** The table, with primary key [(user_id, task_id)]. *)
Abbreviation DB := (gmap (string * string) Row).

(** Block Kit objects; an absent dict key is [None]. *)
Record OptionObj := mkOptionObj { opt_text : string; opt_value : string }.

Record Checkboxes := mkCheckboxes {
  cb_action_id : string;
  cb_options : list OptionObj;
  cb_initial_options : option (list OptionObj)
}.

Inductive Block :=
| BHeader (text : string)
| BSection (text : string)
| BActions (elements : list Checkboxes)
| BContext (elements : list string).

Record View := mkView { view_type : string; blocks : list Block }.

(** Payload of a [block_actions] request. *)
Record Action := mkAction {
  action_id : string;
  selected_options : option (list OptionObj)
}.

Record Body := mkBody { body_user : string; actions : list Action }.

(** Calls made on [ack] and [client]. *)
Inductive Outbound :=
| Ack
| AckText (text : string)
| ViewsPublish (user_id : string) (view : View)
| ChatPostMessage (channel text : string).

(** ** Handler monad

    A handler runs against the table and the list of calls already made;
    [None] is a raised exception, and what was written or sent before it
    stays. *)
Record World := mkWorld { store : DB; sent : list Outbound }.

Definition Handler (A : Type) : Type := World → option A * World.

#[global] Instance handler_ret : MRet Handler := λ A a w, (Some a, w).

#[global] Instance handler_bind : MBind Handler := λ A B f m w,
  match m w with
  | (Some a, w') => f a w'
  | (None, w') => (None, w')
  end.

Definition raise {A} : Handler A := λ w, (None, w).

Definition lift_option {A} (o : option A) : Handler A :=
  match o with Some a => mret a | None => raise end.

Definition db_exec (f : DB → DB) : Handler unit :=
  λ w, (Some (), mkWorld (f (store w)) (sent w)).

Definition db_query {A} (f : DB → A) : Handler A :=
  λ w, (Some (f (store w)), w).

Definition emit (o : Outbound) : Handler unit :=
  λ w, (Some (), mkWorld (store w) (sent w ++ [o])).

(** ** Store primitives *)

(** [INSERT OR IGNORE INTO onboarding_progress ... VALUES (?,?,0,?)]. *)
Definition insert_or_ignore (k : string * string) (r : Row) (db : DB) : DB :=
  match db !! k with
  | Some _ => db
  | None => <[k := r]> db
  end.

(** [UPDATE onboarding_progress SET done=?, updated_at=? WHERE user_id=? AND task_id=?]. *)
Definition update_row (k : string * string) (r : Row) (db : DB) : DB :=
  match db !! k with
  | Some _ => <[k := r]> db
  | None => db
  end.

(** [SELECT task_id FROM onboarding_progress WHERE user_id=? AND done=1],
    collected into a set. *)
Definition get_done_set (db : DB) (user_id : string) : gset string :=
  set_map snd
    (dom (filter (λ kr : (string * string) * Row,
                    kr.1.1 = user_id ∧ done kr.2 = 1%Z) db) : gset (string * string)).

Section Catalog.

(** The module-level constants [TASKS] and [RESOURCES]. *)
Variable TASKS : list Task.
Variable RESOURCES : Resources.

Definition ensure_user_rows (now : string) (user_id : string) (db : DB) : DB :=
  foldl (λ db t, insert_or_ignore (user_id, id t) (mkRow 0 now) db) db TASKS.

Definition set_done_bulk (now : string) (user_id : string)
    (new_done_ids : gset string) (db : DB) : DB :=
  foldl (λ db t,
           let is_done := if decide (id t ∈ new_done_ids) then 1%Z else 0%Z in
           update_row (user_id, id t) (mkRow is_done now) db)
        db TASKS.

Definition group_names_in_order : list string :=
  foldl (λ seen t,
           let g := group t in
           if decide (g ∈ seen) then seen else seen ++ [g])
        [] TASKS.

Definition tasks_by_group : gmap string (list Task) :=
  foldl (λ groups t,
           <[group t := default [] (groups !! group t) ++ [t]]> groups)
        ∅ TASKS.

(** *** Home view *)

Definition option_of (t : Task) : OptionObj :=
  mkOptionObj (label t) (id t).

Definition progress_text (done : gset string) : string :=
  pretty (size done) +:+ "/" +:+ pretty (length TASKS) +:+ " completed".

(** The checkbox element of one group; [initial_options] is set only when
    some task of the group is completed. *)
Definition checkbox_el (done : gset string) (group_name : string)
    (items : list Task) : Checkboxes :=
  let options := option_of <$> items in
  let initial := option_of <$> filter (λ t, id t ∈ done) items in
  {| cb_action_id := "task_toggle_" +:+ lower group_name;
     cb_options := options;
     cb_initial_options :=
       match initial with [] => None | _ :: _ => Some initial end |}.

(** The body of the loop over groups: the header with its mini count and
    the actions block holding the group's checkbox element. *)
Definition group_blocks (done : gset string) (group_name : string)
    (items : list Task) : list Block :=
  let group_done_count := length (filter (λ t, id t ∈ done) items) in
  [ BSection ("*" +:+ group_name +:+ "* (" +:+ pretty group_done_count
              +:+ "/" +:+ pretty (length items) +:+ ")");
    BActions [checkbox_el done group_name items] ].

Definition resources_md : string :=
  all_team_channel RESOURCES +:+ " • " +:+ announcements_channel RESOURCES +:+ " • "
  +:+ "<" +:+ handbook_url RESOURCES +:+ "|Handbook> • "
  +:+ "<" +:+ brand_center_url RESOURCES +:+ "|Brand Center> • "
  +:+ "<" +:+ pd_recordings_url RESOURCES +:+ "|PD Recordings> • "
  +:+ "<" +:+ staff_directory_url RESOURCES +:+ "|Staff Directory>".

(** [build_home_view] once [done] has been read; [None] is the [KeyError]
    of [groups[group_name]]. *)
Definition home_view (done : gset string) : option View :=
  let blocks :=
    [ BHeader "TMS Onboarding Checklist";
      BSection "Welcome to The Movement Street. Check items as you complete them. Your progress saves automatically.";
      BSection ("*Progress:* " +:+ progress_text done) ] in
  let groups := tasks_by_group in
  per_group ← mapM (λ group_name,
                      items ← groups !! group_name;
                      Some (group_blocks done group_name items))
                   group_names_in_order;
  Some (mkView "home"
          (blocks ++ concat per_group
                  ++ [BContext ["Resources: " +:+ resources_md]])).

Definition build_home_view (db : DB) (user_id : string) : option View :=
  home_view (get_done_set db user_id).

(** *** Handlers *)

(** [client.views_publish(user_id=user_id, view=build_home_view(user_id))]. *)
Definition publish_home (user_id : string) : Handler unit :=
  view ← (λ w, (build_home_view (store w) user_id, w));
  emit (ViewsPublish user_id view).

Definition handle_home_opened (now : string) (user_id : string) : Handler unit :=
  db_exec (ensure_user_rows now user_id);;
  publish_home user_id.

Definition handle_team_join (now : string) (user_id : string) : Handler unit :=
  db_exec (ensure_user_rows now user_id);;
  emit (ChatPostMessage user_id
          "Welcome to TMS. Open the app’s *Home* tab to see your onboarding checklist. If you have questions, reply here.");;
  publish_home user_id.

Definition group_task_ids_of (group_key : string) : gset string :=
  list_to_set (id <$> filter (λ t, lower (group t) = group_key) TASKS).

Definition selected_ids_of (a : Action) : gset string :=
  list_to_set (opt_value <$> default [] (selected_options a)).

Definition handle_toggle_any_group (now1 now2 : string) (body : Body) : Handler unit :=
  emit Ack;;
  let user_id := body_user body in
  a ← lift_option (head (actions body));
  let group_key := replace_first "task_toggle_" "" (action_id a) in
  let group_task_ids := group_task_ids_of group_key in
  let selected_ids := selected_ids_of a in
  current_done ← db_query (λ db, get_done_set db user_id);
  let new_done := (current_done ∖ group_task_ids) ∪ selected_ids in
  db_exec (ensure_user_rows now1 user_id);;
  db_exec (set_done_bulk now2 user_id new_done);;
  publish_home user_id.

Definition cmd_onboard (now : string) (user_id : string) : Handler unit :=
  emit (AckText "Opening your checklist in the App Home.");;
  db_exec (ensure_user_rows now user_id);;
  publish_home user_id.

End Catalog.

(** ** The catalog and resources of the deployed bot *)

Definition RESOURCES : Resources := {|
  handbook_url := "https://docs.google.com/document/d/1711C6vSp4r4EHZw5MbgYuy-LkxrPF-2o69fHCCgU0fQ/edit?usp=sharing";
  brand_center_url := "https://drive.google.com/file/d/1hTp4w1ufmJVgNkzYxsOLjcdI9kBvro1X/view?usp=sharing";
  pd_recordings_url := "https://drive.google.com/drive/folders/1VkBMVvdlG0IofZ7_RKB4dMT0aXEzsxew?usp=drive_link";
  staff_directory_url := "https://docs.google.com/spreadsheets/d/1_7uLjg20Oy-ajgQCVdtozPTiWnO5pgdniR3lpKqRjw0/edit?usp=sharing";
  all_team_channel := "<#allthemovementstreet>";
  announcements_channel := "<#announcements>";
  admin_email := "admin@themovementstreet.org"
|}.

Definition TASKS : list Task := [
  mkTask "welcome_letter" "Sign Welcome Letter" "Paperwork";
  mkTask "nda" "Sign NDA" "Paperwork";
  mkTask "offer_letter" "Sign Offer Letter" "Paperwork";
  mkTask "volunteer_agreement" "Sign Volunteer Agreement" "Paperwork";
  mkTask "contract" "Sign Contract (duties and responsibilities)" "Paperwork";
  mkTask "upload_docs" ("Upload docs & share with " +:+ admin_email RESOURCES) "Paperwork";
  mkTask "staff_directory" "Review Staff Directory" "Integration";
  mkTask "chapter_handbook" "Read Chapter Handbook" "Integration";
  mkTask "brand_center" "Explore Brand Center" "Integration";
  mkTask "pd_recordings" "Watch Professional Development Recordings" "Integration";
  mkTask "role_checklist" "Review your role-specific checklist" "Workflow";
  mkTask "setup_workflow" "Set up your role workflows and tools" "Workflow";
  mkTask "coffee_chat_1" "Coffee Chat #1 with a TMS team member" "Culture";
  mkTask "coffee_chat_2" "Coffee Chat #2 with a TMS team member" "Culture";
  mkTask "coffee_chat_3" "Coffee Chat #3 with a TMS team member" "Culture"
].

(** The catalog of the specification's end-to-end scenario; labels are
    left open. *)
Definition TASKS3 (l1 l2 l3 : string) : list Task :=
  [ mkTask "t1" l1 "G1"; mkTask "t2" l2 "G1"; mkTask "t3" l3 "G2" ].

(** A two-group catalog for the group isolation example. *)
Definition TASKS_AB : list Task :=
  [ mkTask "a1" "A one" "A"; mkTask "a2" "A two" "A"; mkTask "b1" "B one" "B" ].

(** The ids of the catalog, as a set. *)
Definition catalog_ids (tasks : list Task) : gset string :=
  list_to_set (id <$> tasks).

(** Repeated initialisation, one timestamp per call. *)
Definition ensure_user_rows_many (tasks : list Task) (nows : list string)
    (user_id : string) (db : DB) : DB :=
  foldl (λ db now, ensure_user_rows tasks now user_id db) db nows.

(** Specification side of [group_names_in_order]: each name is kept at
    its first occurrence and dropped afterwards. *)
Fixpoint first_occurrence_order (l : list string) : list string :=
  match l with
  | [] => []
  | g :: l' => g :: filter (λ h, h ≠ g) (first_occurrence_order l')
  end.

(** The tasks of one group, in catalog order. *)
Definition group_items (tasks : list Task) (g : string) : list Task :=
  filter (λ t, group t = g) tasks.

(** The three leading blocks and the footer of the home view. *)
Definition leading_blocks (tasks : list Task) (done : gset string) : list Block :=
  [ BHeader "TMS Onboarding Checklist";
    BSection "Welcome to The Movement Street. Check items as you complete them. Your progress saves automatically.";
    BSection ("*Progress:* " +:+ progress_text tasks done) ].

Definition footer_block (res : Resources) : Block :=
  BContext ["Resources: " +:+ resources_md res].

(** The blocks of the home view, written with [group_items]. *)
Definition home_blocks (tasks : list Task) (res : Resources)
    (done : gset string) : list Block :=
  leading_blocks tasks done
  ++ concat ((λ g, group_blocks done g (group_items tasks g))
               <$> group_names_in_order tasks)
  ++ [footer_block res].

(** The group key a toggle action carries. *)
Definition group_key_of (a : Action) : string :=
  replace_first "task_toggle_" "" (action_id a).

(** The table after a toggle on a payload with at least one action. *)
Definition toggled_store (tasks : list Task) (now1 now2 u : string)
    (a : Action) (db : DB) : DB :=
  let new_done :=
    (get_done_set db u ∖ group_task_ids_of tasks (group_key_of a))
    ∪ selected_ids_of a in
  set_done_bulk tasks now2 u new_done (ensure_user_rows tasks now1 u db).

(** The checkbox elements of a view, in block order. *)
Definition view_checkboxes (v : View) : list Checkboxes :=
  blocks v ≫= λ b, match b with BActions els => els | _ => [] end.

(** Example payloads and states on the deployed catalog: a user whose
    rows exist with nothing completed, a Paperwork toggle that carries an
    Integration id, and a toggle whose key names no group. *)
Definition fresh_world : World :=
  mkWorld (ensure_user_rows TASKS "2025-01-01T09:00:00+00:00" "U1" ∅) [].

Definition foreign_action : Action :=
  mkAction "task_toggle_paperwork"
    (Some [mkOptionObj "Review Staff Directory" "staff_directory"]).

Definition stray_action : Action :=
  mkAction "task_toggle_nosuchgroup" (Some [mkOptionObj "Sign NDA" "nda"]).

Definition culture_action : Action :=
  mkAction "task_toggle_culture"
    (Some [mkOptionObj "Coffee Chat #1 with a TMS team member" "coffee_chat_1"]).

(** The group isolation example: a1 and b1 completed, then A toggled with
    a2 selected. *)
Definition ab_world : World :=
  mkWorld (set_done_bulk TASKS_AB "2025-01-01T09:00:01+00:00" "U1" {["a1"; "b1"]}
             (ensure_user_rows TASKS_AB "2025-01-01T09:00:00+00:00" "U1" ∅)) [].

Definition ab_action : Action :=
  mkAction "task_toggle_a" (Some [mkOptionObj "A two" "a2"]).

(** Specification side of [build_home_view]: the document written as a
    function of the catalog, the resources and the completed set only, over
    the catalog list itself. A group's subsection is its header line and
    one checkbox element offering the group's tasks; the pre-checked
    options are left out when none of them is completed. *)
Definition render_section (tasks : list Task) (done : gset string)
    (g : string) : list Block :=
  let items := filter (λ t, group t = g) tasks in
  let checked := filter (λ t, id t ∈ done) items in
  [ BSection ("*" +:+ g +:+ "* (" +:+ pretty (length checked)
              +:+ "/" +:+ pretty (length items) +:+ ")");
    BActions
      [ {| cb_action_id := "task_toggle_" +:+ lower g;
           cb_options := (λ t, mkOptionObj (label t) (id t)) <$> items;
           cb_initial_options :=
             match checked with
             | [] => None
             | _ :: _ => Some ((λ t, mkOptionObj (label t) (id t)) <$> checked)
             end |} ] ].

(** Header, welcome and progress lines, then the subsections of the groups
    in the order of their first occurrence in the catalog, then the
    resources line. *)
Definition render (tasks : list Task) (res : Resources)
    (done : gset string) : View :=
  mkView "home"
    ([ BHeader "TMS Onboarding Checklist";
       BSection "Welcome to The Movement Street. Check items as you complete them. Your progress saves automatically.";
       BSection ("*Progress:* " +:+ pretty (size done) +:+ "/"
                 +:+ pretty (length tasks) +:+ " completed") ]
     ++ (first_occurrence_order (group <$> tasks) ≫= render_section tasks done)
     ++ [ BContext
            [ "Resources: "
              +:+ (all_team_channel res +:+ " • " +:+ announcements_channel res +:+ " • "
                   +:+ "<" +:+ handbook_url res +:+ "|Handbook> • "
                   +:+ "<" +:+ brand_center_url res +:+ "|Brand Center> • "
                   +:+ "<" +:+ pd_recordings_url res +:+ "|PD Recordings> • "
                   +:+ "<" +:+ staff_directory_url res +:+ "|Staff Directory>") ] ]).

(** The views handed to [views_publish], oldest first, and the progress
    line of a view (its third block). *)
Definition published_views (w : World) : list View :=
  omap (λ o, match o with ViewsPublish _ v => Some v | _ => None end) (sent w).

Definition progress_line (v : View) : option Block := blocks v !! 2.

(** A copy of the table with every [updated_at] rewritten. *)
Definition restamp (f : string → string) (db : DB) : DB :=
  (λ r, mkRow (done r) (f (updated_at r))) <$> db.

(** A table in which the user has completed exactly [nda]. *)
Definition nda_store (now u : string) : DB :=
  set_done_bulk TASKS now u {["nda"]} (ensure_user_rows TASKS now u ∅).

(** Inbound events and their dispatch to the handlers. *)
Inductive Event :=
| HomeOpened (now user_id : string)
| TeamJoin (now user_id : string)
| Toggle (now1 now2 : string) (body : Body)
| Onboard (now user_id : string).

Definition handle (tasks : list Task) (res : Resources) (e : Event) : Handler unit :=
  match e with
  | HomeOpened now u => handle_home_opened tasks res now u
  | TeamJoin now u => handle_team_join tasks res now u
  | Toggle now1 now2 body => handle_toggle_any_group tasks res now1 now2 body
  | Onboard now u => cmd_onboard tasks res now u
  end.

Definition run (tasks : list Task) (res : Resources) (es : list Event)
    (w : World) : World :=
  foldl (λ w e, (handle tasks res e w).2) w es.

(** The scenario on [TASKS3]: the home tab is opened by the new user u1,
    then G1 is toggled with t1 selected, G2 with t3 selected, and G1 with
    nothing selected (an empty or an absent [selected_options]). The
    action ids are those the rendered view carries. *)
Definition scenario_events (l1 l3 : string) (n : nat → string) (absent : bool)
    : list Event :=
  [ HomeOpened (n 0) "u1";
    Toggle (n 1) (n 2)
      (mkBody "u1" [mkAction "task_toggle_g1" (Some [mkOptionObj l1 "t1"])]);
    Toggle (n 3) (n 4)
      (mkBody "u1" [mkAction "task_toggle_g2" (Some [mkOptionObj l3 "t3"])]);
    Toggle (n 5) (n 6)
      (mkBody "u1" [mkAction "task_toggle_g1" (if absent then None else Some [])]) ].

(** ** Definitions for the further properties *)

(** The user an event acts for. *)
Definition event_user (e : Event) : string :=
  match e with
  | HomeOpened _ u | TeamJoin _ u | Onboard _ u => u
  | Toggle _ _ body => body_user body
  end.

(** The addressee of a call on [client]; the acknowledgements have none. *)
Definition outbound_user (o : Outbound) : option string :=
  match o with
  | ViewsPublish u _ => Some u
  | ChatPostMessage channel _ => Some channel
  | Ack | AckText _ => None
  end.

(** The mini count shown in the header of a group. *)
Definition group_done_count (tasks : list Task) (done : gset string)
    (g : string) : nat :=
  length (filter (λ t, id t ∈ done) (group_items tasks g)).

(** What holds of the table in every state the handlers reach from an
    empty one: rows carry catalog ids, flags are 0 or 1, and a user with
    one row has a row for every catalog task. *)
Definition store_ok (tasks : list Task) (db : DB) : Prop :=
  ∀ u tid r, db !! (u, tid) = Some r →
    tid ∈ catalog_ids tasks
    ∧ (done r = 0 ∨ done r = 1)%Z
    ∧ ∀ tid', tid' ∈ catalog_ids tasks → is_Some (db !! (u, tid')).

(** Example payloads for the properties below. *)
Definition paperwork_action : Action :=
  mkAction "task_toggle_paperwork"
    (Some [mkOptionObj "Sign NDA" "nda"; mkOptionObj "Sign Contract" "contract"]).

Definition two_done : gset string := {["nda"; "coffee_chat_2"]}.

(** * Strings *)

Lemma lower_ascii_idemp (c : ascii) : lower_ascii (lower_ascii c) = lower_ascii c.
Proof. by destruct c as [[] [] [] [] [] [] [] []]. Qed.

Lemma lower_idemp (s : string) : lower (lower s) = lower s.
Proof.
  induction s as [|c s IH]; simpl; [done|]. by rewrite lower_ascii_idemp, IH.
Qed.

Example replace_first_prefix :
  replace_first "task_toggle_" "" "task_toggle_paperwork" = "paperwork".
Proof. reflexivity. Qed.

Example replace_first_leftmost :
  replace_first "ab" "-" "xabab" = "x-ab" ∧ replace_first "ab" "-" "xyz" = "xyz".
Proof. split; reflexivity. Qed.

Example lower_ascii_only : lower "Paper Work_1" = "paper work_1".
Proof. reflexivity. Qed.

(** The handler lowers the catalog's group names but not the key taken
    from the action id: the views it renders carry lowered keys, and a key
    with a capital matches no group. *)
Example group_key_is_compared_as_sent :
  group_task_ids_of TASKS "paperwork"
    = {["welcome_letter"; "nda"; "offer_letter"; "volunteer_agreement";
        "contract"; "upload_docs"]}
  ∧ group_task_ids_of TASKS "Paperwork" = ∅.
Proof. split; compute_done. Qed.

(** * Store lemmas *)

Section StoreFacts.

Implicit Types (tasks : list Task) (db : DB) (k : string * string) (u tid now : string).

Lemma elem_of_get_done_set db u tid :
  tid ∈ get_done_set db u ↔ ∃ r, db !! (u, tid) = Some r ∧ done r = 1%Z.
Proof.
  unfold get_done_set. rewrite elem_of_map. split.
  - intros [[u' t'] [-> Hk]]. apply elem_of_dom in Hk as [r Hr].
    apply map_lookup_filter_Some in Hr as [Hr [Hu Hd]]. simpl in *. subst u'.
    eauto.
  - intros (r & Hr & Hd). exists (u, tid). split; [done|].
    apply elem_of_dom. exists r. by apply map_lookup_filter_Some.
Qed.

Lemma lookup_insert_or_ignore k k' r db :
  insert_or_ignore k r db !! k' =
    match db !! k' with
    | Some r' => Some r'
    | None => if decide (k = k') then Some r else None
    end.
Proof.
  unfold insert_or_ignore. destruct (db !! k) as [r0|] eqn:Hk.
  - destruct (db !! k') eqn:Hk'; [done|]. case_decide; congruence.
  - rewrite lookup_insert. case_decide; subst.
    + by rewrite Hk.
    + by destruct (db !! k').
Qed.

Lemma lookup_update_row k k' r db :
  update_row k r db !! k' =
    match db !! k' with
    | Some r' => Some (if decide (k = k') then r else r')
    | None => None
    end.
Proof.
  unfold update_row. destruct (db !! k) as [r0|] eqn:Hk.
  - rewrite lookup_insert. case_decide; subst.
    + by rewrite Hk.
    + by destruct (db !! k').
  - destruct (db !! k') eqn:Hk'; [|done]. case_decide; congruence.
Qed.

Lemma lookup_ensure_user_rows tasks now u db k :
  ensure_user_rows tasks now u db !! k =
    match db !! k with
    | Some r => Some r
    | None =>
        if decide (k.1 = u ∧ k.2 ∈ id <$> tasks)
        then Some (mkRow 0 now) else None
    end.
Proof.
  unfold ensure_user_rows. revert db.
  induction tasks as [|t ts IH]; intros db; simpl.
  - destruct (db !! k); [done|]. case_decide as H; [|done].
    destruct H as [_ H]. by apply elem_of_nil in H.
  - rewrite IH, lookup_insert_or_ignore. destruct k as [u' tid]; simpl.
    destruct (db !! (u', tid)); [done|].
    repeat case_decide; try done; exfalso; set_solver.
Qed.

Lemma lookup_set_done_bulk tasks now u (new_done_ids : gset string) db k :
  set_done_bulk tasks now u new_done_ids db !! k =
    match db !! k with
    | Some r =>
        if decide (k.1 = u ∧ k.2 ∈ id <$> tasks)
        then Some (mkRow (if decide (k.2 ∈ new_done_ids) then 1 else 0) now)
        else Some r
    | None => None
    end.
Proof.
  unfold set_done_bulk. revert db.
  induction tasks as [|t ts IH]; intros db; simpl.
  - destruct (db !! k); [|done]. case_decide as H; [|done].
    destruct H as [_ H]. by apply elem_of_nil in H.
  - rewrite IH, lookup_update_row. destruct k as [u' tid]; simpl.
    destruct (db !! (u', tid)); [|done].
    repeat case_decide; simplify_eq/=; try done; exfalso; set_solver.
Qed.

Lemma elem_of_catalog_ids tasks tid :
  tid ∈ catalog_ids tasks ↔ tid ∈ id <$> tasks.
Proof. unfold catalog_ids. by rewrite elem_of_list_to_set. Qed.

(** The completed set after [ensure_user_rows] then [set_done_bulk]:
    catalog ids follow [new_done_ids], all other rows keep their flag. *)
Lemma get_done_set_after_write tasks now1 now2 u (new_done_ids : gset string) db :
  get_done_set (set_done_bulk tasks now2 u new_done_ids
                  (ensure_user_rows tasks now1 u db)) u
  = (new_done_ids ∩ catalog_ids tasks) ∪ (get_done_set db u ∖ catalog_ids tasks).
Proof.
  apply set_eq. intros tid.
  rewrite elem_of_union, elem_of_intersection, elem_of_difference.
  rewrite !elem_of_get_done_set, elem_of_catalog_ids.
  setoid_rewrite lookup_set_done_bulk.
  setoid_rewrite lookup_ensure_user_rows. simpl.
  destruct (db !! (u, tid)) as [r|] eqn:Hr;
    repeat case_decide; split; intros Hin;
    repeat match goal with
      | H : _ ∨ _ |- _ => destruct H
      | H : _ ∧ _ |- _ => destruct H
      | H : ∃ _, _ |- _ => destruct H
      end; simplify_eq/=; eauto; try tauto.
  right. split; [eauto | tauto].
Qed.

Lemma group_task_ids_subseteq tasks key :
  group_task_ids_of tasks key ⊆ catalog_ids tasks.
Proof.
  intros tid. unfold group_task_ids_of. rewrite elem_of_list_to_set, elem_of_catalog_ids.
  rewrite !list_elem_of_fmap. intros (t & -> & Ht).
  apply list_elem_of_filter in Ht as [_ Ht]. eauto.
Qed.

Lemma elem_of_group_task_ids tasks key tid :
  tid ∈ group_task_ids_of tasks key ↔
  ∃ t, t ∈ tasks ∧ id t = tid ∧ lower (group t) = key.
Proof.
  unfold group_task_ids_of. rewrite elem_of_list_to_set, list_elem_of_fmap.
  setoid_rewrite list_elem_of_filter. naive_solver.
Qed.

(** The merge of the toggle handler, read back from the table. *)
Lemma get_done_set_after_merge tasks now1 now2 u (gids sel : gset string) db :
  gids ⊆ catalog_ids tasks →
  get_done_set (set_done_bulk tasks now2 u ((get_done_set db u ∖ gids) ∪ sel)
                  (ensure_user_rows tasks now1 u db)) u
  = (get_done_set db u ∖ gids) ∪ (sel ∩ catalog_ids tasks).
Proof.
  intros Hsub. rewrite get_done_set_after_write.
  apply set_eq. intros tid.
  destruct (decide (tid ∈ catalog_ids tasks)); set_solver.
Qed.

End StoreFacts.

(** * Catalog grouping *)

Section Grouping.

Implicit Types (tasks : list Task) (g : string).

Lemma filter_all {A} (P : A → Prop) `{!∀ x, Decision (P x)} (l : list A) :
  (∀ x, x ∈ l → P x) → filter P l = l.
Proof.
  induction l as [|x l IH]; intros HP; [done|].
  rewrite filter_cons_True by (apply HP; left).
  f_equal. apply IH. intros y Hy. apply HP. by right.
Qed.

Lemma filter_none {A} (P : A → Prop) `{!∀ x, Decision (P x)} (l : list A) :
  (∀ x, x ∈ l → ¬ P x) → filter P l = [].
Proof.
  induction l as [|x l IH]; intros HP; [done|].
  rewrite filter_cons_False by (apply HP; left).
  apply IH. intros y Hy. apply HP. by right.
Qed.

Lemma group_names_from tasks (seen : list string) :
  foldl (λ seen t, if decide (group t ∈ seen) then seen else seen ++ [group t])
        seen tasks
  = seen ++ filter (λ g, g ∉ seen) (first_occurrence_order (group <$> tasks)).
Proof.
  revert seen. induction tasks as [|t ts IH]; intros seen; simpl.
  - by rewrite app_nil_r.
  - rewrite IH. case_decide as Hin.
    + rewrite filter_cons_False by tauto. f_equal.
      rewrite list_filter_filter. apply list_filter_iff. naive_solver.
    + rewrite filter_cons_True by done. rewrite <- app_assoc. simpl. do 2 f_equal.
      rewrite list_filter_filter. apply list_filter_iff.
      intros h. rewrite elem_of_app, list_elem_of_singleton. tauto.
Qed.

Lemma group_names_first_occurrence tasks :
  group_names_in_order tasks = first_occurrence_order (group <$> tasks).
Proof.
  unfold group_names_in_order. rewrite group_names_from. simpl.
  apply filter_all. intros h _. apply not_elem_of_nil.
Qed.

Lemma elem_of_first_occurrence_order (l : list string) g :
  g ∈ first_occurrence_order l ↔ g ∈ l.
Proof.
  induction l as [|h l IH]; simpl; [done|].
  rewrite !elem_of_cons, list_elem_of_filter, IH.
  destruct (decide (g = h)); naive_solver.
Qed.

Lemma NoDup_first_occurrence_order (l : list string) :
  NoDup (first_occurrence_order l).
Proof.
  induction l as [|h l IH]; simpl; [constructor|].
  constructor.
  - rewrite list_elem_of_filter. naive_solver.
  - by apply NoDup_filter.
Qed.

Lemma elem_of_group_names_in_order tasks g :
  g ∈ group_names_in_order tasks ↔ ∃ t, t ∈ tasks ∧ group t = g.
Proof.
  rewrite group_names_first_occurrence, elem_of_first_occurrence_order.
  rewrite list_elem_of_fmap. naive_solver.
Qed.

Lemma tasks_by_group_snoc tasks t :
  tasks_by_group (tasks ++ [t])
  = <[group t := default [] (tasks_by_group tasks !! group t) ++ [t]]>
      (tasks_by_group tasks).
Proof. unfold tasks_by_group. by rewrite foldl_snoc. Qed.

(** [tasks_by_group] holds, under each group name of the catalog, that
    group's tasks in catalog order; other keys are absent. *)
Lemma lookup_tasks_by_group tasks g :
  tasks_by_group tasks !! g =
    if decide (g ∈ group_names_in_order tasks)
    then Some (filter (λ t, group t = g) tasks) else None.
Proof.
  induction tasks as [|t ts IH] using rev_ind.
  - done.
  - rewrite tasks_by_group_snoc, filter_app, lookup_insert.
    destruct (decide (group t = g)) as [<-|Hne].
    + rewrite IH, filter_cons_True, filter_nil by done.
      assert (group t ∈ group_names_in_order (ts ++ [t])) as Hnew.
      { apply elem_of_group_names_in_order. exists t.
        split; [|done]. apply elem_of_app. right. by apply list_elem_of_singleton. }
      rewrite (decide_True _ _ Hnew).
      case_decide as Hin; simpl; [done|].
      f_equal. rewrite filter_none; [done|].
      intros t' Ht' Hg. apply Hin.
      apply elem_of_group_names_in_order. eauto.
    + rewrite IH, filter_cons_False, filter_nil, app_nil_r by done.
      apply decide_ext. rewrite !elem_of_group_names_in_order.
      setoid_rewrite elem_of_app. setoid_rewrite list_elem_of_singleton.
      naive_solver.
Qed.

End Grouping.

(** * The home view *)

Section HomeView.

Context (tasks : list Task) (res : Resources).

Implicit Types (done : gset string) (g : string).

Lemma mapM_total {A B} (f : A → option B) (h : A → B) (l : list A) :
  (∀ x, x ∈ l → f x = Some (h x)) → mapM f l = Some (h <$> l).
Proof.
  intros Hf. apply mapM_Some. induction l as [|x l IH]; simpl; constructor.
  - apply Hf. left.
  - apply IH. intros y Hy. apply Hf. by right.
Qed.

(** [groups[group_name]] never raises, and the view is the leading blocks,
    then the blocks of each group in [group_names_in_order], then the
    footer. *)
Lemma home_view_eq done :
  home_view tasks res done
  = Some (mkView "home" (home_blocks tasks res done)).
Proof.
  unfold home_view.
  rewrite (mapM_total _ (λ g, group_blocks done g (group_items tasks g))).
  - done.
  - intros g Hg. rewrite lookup_tasks_by_group. by rewrite decide_True.
Qed.

Lemma build_home_view_eq (db : DB) (u : string) :
  build_home_view tasks res db u
  = Some (mkView "home" (home_blocks tasks res (get_done_set db u))).
Proof. apply home_view_eq. Qed.

Lemma build_home_view_total (db : DB) (u : string) :
  is_Some (build_home_view tasks res db u).
Proof. rewrite build_home_view_eq. eauto. Qed.

End HomeView.

(** * Running the handlers *)

Section Handlers.

Context (tasks : list Task) (res : Resources).

Lemma publish_home_run (u : string) (w : World) :
  publish_home tasks res u w
  = (Some (),
     mkWorld (store w)
       (sent w ++ [ViewsPublish u
                     (mkView "home" (home_blocks tasks res (get_done_set (store w) u)))])).
Proof.
  unfold publish_home, mbind, handler_bind. by rewrite build_home_view_eq.
Qed.

Lemma handle_toggle_run (now1 now2 u : string) (a : Action) (rest : list Action)
    (w : World) :
  handle_toggle_any_group tasks res now1 now2 (mkBody u (a :: rest)) w
  = (Some (),
     let db' := toggled_store tasks now1 now2 u a (store w) in
     mkWorld db'
       (sent w ++ [Ack; ViewsPublish u
                          (mkView "home" (home_blocks tasks res (get_done_set db' u)))])).
Proof.
  unfold handle_toggle_any_group, mbind, handler_bind, emit, db_query, db_exec.
  simpl. rewrite publish_home_run. simpl. by rewrite <- app_assoc.
Qed.

Lemma handle_toggle_no_action (now1 now2 u : string) (w : World) :
  handle_toggle_any_group tasks res now1 now2 (mkBody u []) w
  = (None, mkWorld (store w) (sent w ++ [Ack])).
Proof. done. Qed.

Lemma toggled_done_set (now1 now2 u : string) (a : Action) (db : DB) :
  get_done_set (toggled_store tasks now1 now2 u a db) u
  = (get_done_set db u ∖ group_task_ids_of tasks (group_key_of a))
    ∪ (selected_ids_of a ∩ catalog_ids tasks).
Proof.
  unfold toggled_store. apply get_done_set_after_merge, group_task_ids_subseteq.
Qed.

End Handlers.

(** * The scoped merge *)

Section Merge.

Context (tasks : list Task) (res : Resources).

Implicit Types (u : string) (a : Action) (w : World).

(** C1 (as the code has it). A toggle on group G stores
    newDone = (currentDone - groupTaskIds) ∪ (selected ∩ catalogTaskIds):
    the selection is cut down to the catalog, not to G. Every id completed
    before and outside G stays completed, and an id outside G is completed
    afterwards exactly when it was completed before or is a selected
    catalog id; a selected value that is no catalog id is dropped. *)
Theorem C1_merge_cuts_selection_to_catalog (now1 now2 : string) u a rest w :
  let gids := group_task_ids_of tasks (group_key_of a) in
  let cur := get_done_set (store w) u in
  let w' := (handle_toggle_any_group tasks res now1 now2 (mkBody u (a :: rest)) w).2 in
  get_done_set (store w') u = (cur ∖ gids) ∪ (selected_ids_of a ∩ catalog_ids tasks)
  ∧ cur ∖ gids ⊆ get_done_set (store w') u ∖ gids
  ∧ ∀ tid, tid ∉ gids →
      (tid ∈ get_done_set (store w') u ↔
       tid ∈ cur ∨ (tid ∈ selected_ids_of a ∧ tid ∈ catalog_ids tasks)).
Proof.
  intros gids cur w'. subst w'. rewrite handle_toggle_run. simpl.
  rewrite toggled_done_set. fold gids cur.
  split; [done|]. split; set_solver.
Qed.

(** C2 (as the code has it). When no catalog group matches the action's
    group key, case-insensitively, the handler succeeds, the stored
    completed set becomes the prior one together with the selected
    catalog ids (so it is unchanged when nothing new from the catalog is
    selected, in particular on an empty selection), and the view of the
    resulting state is published. *)
Theorem C2_unknown_group_adds_selection (now1 now2 : string) u a rest w :
  (∀ t, t ∈ tasks → lower (group t) ≠ lower (group_key_of a)) →
  let cur := get_done_set (store w) u in
  ∃ db' view,
    handle_toggle_any_group tasks res now1 now2 (mkBody u (a :: rest)) w
      = (Some (), mkWorld db' (sent w ++ [Ack; ViewsPublish u view]))
    ∧ build_home_view tasks res db' u = Some view
    ∧ get_done_set db' u = cur ∪ (selected_ids_of a ∩ catalog_ids tasks)
    ∧ (selected_ids_of a ∩ catalog_ids tasks ⊆ cur → get_done_set db' u = cur).
Proof.
  intros Hno cur. rewrite handle_toggle_run. simpl.
  eexists _, _. split; [done|]. split; [apply build_home_view_eq|].
  rewrite toggled_done_set. fold cur.
  assert (group_task_ids_of tasks (group_key_of a) = ∅) as ->.
  { apply set_eq. intros tid. rewrite elem_of_group_task_ids. split; [|set_solver].
    intros (t & Ht & _ & Hg). exfalso. apply (Hno t Ht).
    by rewrite <- Hg, lower_idemp. }
  split; set_solver.
Qed.

(** C4. When every selected id belongs to the toggled group, the stored
    completed set becomes (currentDone - groupTaskIds) ∪ selected: ids
    outside the group keep their state, and an id of the group is
    completed afterwards exactly when it is selected. *)
Theorem C4_group_isolation (now1 now2 : string) u a rest w :
  let gids := group_task_ids_of tasks (group_key_of a) in
  let cur := get_done_set (store w) u in
  let w' := (handle_toggle_any_group tasks res now1 now2 (mkBody u (a :: rest)) w).2 in
  selected_ids_of a ⊆ gids →
  get_done_set (store w') u = (cur ∖ gids) ∪ selected_ids_of a
  ∧ (∀ tid, tid ∉ gids → (tid ∈ get_done_set (store w') u ↔ tid ∈ cur))
  ∧ (∀ tid, tid ∈ gids → tid ∉ selected_ids_of a → tid ∉ get_done_set (store w') u)
  ∧ (∀ tid, tid ∈ gids → (tid ∈ get_done_set (store w') u ↔ tid ∈ selected_ids_of a)).
Proof.
  intros gids cur w' Hsel. subst w'. rewrite handle_toggle_run. simpl.
  rewrite toggled_done_set. fold gids cur.
  pose proof (group_task_ids_subseteq tasks (group_key_of a)) as Hsub. fold gids in Hsub.
  repeat split; set_solver.
Qed.

(** C10. For a user without any row [get_done_set] is the empty set, and
    a toggle handled in that state succeeds: it creates the user's rows
    and stores the selected catalog ids, which is the whole selection when
    that lies in the toggled group. *)
Theorem C10_unknown_user_toggle (now1 now2 : string) u a rest w :
  (∀ tid, store w !! (u, tid) = None) →
  let gids := group_task_ids_of tasks (group_key_of a) in
  let r := handle_toggle_any_group tasks res now1 now2 (mkBody u (a :: rest)) w in
  get_done_set (store w) u = ∅
  ∧ r.1 = Some ()
  ∧ get_done_set (store r.2) u = selected_ids_of a ∩ catalog_ids tasks
  ∧ (selected_ids_of a ⊆ gids → get_done_set (store r.2) u = selected_ids_of a)
  ∧ (∀ tid, tid ∈ catalog_ids tasks → is_Some (store r.2 !! (u, tid))).
Proof.
  intros Hnone gids r.
  assert (get_done_set (store w) u = ∅) as Hcur.
  { apply set_eq. intros tid. rewrite elem_of_get_done_set, Hnone. set_solver. }
  split; [done|]. subst r. rewrite handle_toggle_run. simpl.
  split; [done|]. rewrite toggled_done_set, Hcur.
  pose proof (group_task_ids_subseteq tasks (group_key_of a)) as Hsub. fold gids in Hsub.
  split; [set_solver|]. split; [set_solver|].
  intros tid Htid. unfold toggled_store.
  rewrite lookup_set_done_bulk, lookup_ensure_user_rows, Hnone. simpl.
  apply elem_of_catalog_ids in Htid.
  rewrite decide_True by done. rewrite decide_True by done. eauto.
Qed.

End Merge.

(** C1, as stated, fails: a Paperwork toggle carrying the Integration id
    [staff_directory] stores that id, so the result is not
    (currentDone - groupTaskIds) ∪ (selected ∩ groupTaskIds), and the
    completed ids outside Paperwork are not what they were. *)
Lemma C1_foreign_id_is_stored :
  let gids := group_task_ids_of TASKS (group_key_of foreign_action) in
  let cur := get_done_set (store fresh_world) "U1" in
  let w' := (handle_toggle_any_group TASKS RESOURCES
               "2025-01-01T09:05:00+00:00" "2025-01-01T09:05:01+00:00"
               (mkBody "U1" [foreign_action]) fresh_world).2 in
  ("staff_directory" ∈ catalog_ids TASKS)
  ∧ ("staff_directory" ∉ gids)
  ∧ (get_done_set (store w') "U1" = {["staff_directory"]})
  ∧ (get_done_set (store w') "U1"
       ≠ (cur ∖ gids) ∪ (selected_ids_of foreign_action ∩ gids))
  ∧ (get_done_set (store w') "U1" ∖ gids ≠ cur ∖ gids).
Proof. repeat split; compute_done. Qed.

(** C2, as stated, fails: a toggle whose key names no catalog group still
    stores the selected catalog id [nda]. *)
Lemma C2_unknown_group_not_noop :
  let w' := (handle_toggle_any_group TASKS RESOURCES
               "2025-01-01T09:05:00+00:00" "2025-01-01T09:05:01+00:00"
               (mkBody "U1" [stray_action]) fresh_world).2 in
  Forall (λ t, lower (group t) ≠ lower (group_key_of stray_action)) TASKS
  ∧ get_done_set (store fresh_world) "U1" = ∅
  ∧ get_done_set (store w') "U1" = {["nda"]}
  ∧ get_done_set (store w') "U1" ≠ get_done_set (store fresh_world) "U1".
Proof. repeat split; compute_done. Qed.

(** A toggle on an unknown group with an empty selection leaves the
    completed set as it was. *)
Lemma C2_unknown_group_adds_selection_witness :
  let a := mkAction "task_toggle_nosuchgroup" (Some []) in
  (∀ t, t ∈ TASKS → lower (group t) ≠ lower (group_key_of a))
  ∧ (∃ db' view,
      handle_toggle_any_group TASKS RESOURCES "t1" "t2" (mkBody "U1" [a]) fresh_world
        = (Some (), mkWorld db' (sent fresh_world ++ [Ack; ViewsPublish "U1" view]))
      ∧ get_done_set db' "U1" = get_done_set (store fresh_world) "U1").
Proof.
  intros a.
  assert (∀ t, t ∈ TASKS → lower (group t) ≠ lower (group_key_of a)) as Hno.
  { apply Forall_forall. compute_done. }
  split; [exact Hno|].
  destruct (C2_unknown_group_adds_selection TASKS RESOURCES "t1" "t2" "U1" a []
              fresh_world Hno) as (db' & view & Hrun & _ & _ & Hsame).
  exists db', view. split; [exact Hrun|]. apply Hsame. compute_done.
Defined.

(** The group isolation example: {a1, b1}, A toggled with a2 selected,
    gives {a2, b1}. *)
Lemma C4_group_isolation_witness :
  let gids := group_task_ids_of TASKS_AB (group_key_of ab_action) in
  let w' := (handle_toggle_any_group TASKS_AB RESOURCES "t1" "t2"
               (mkBody "U1" [ab_action]) ab_world).2 in
  selected_ids_of ab_action ⊆ gids
  ∧ get_done_set (store ab_world) "U1" = {["a1"; "b1"]}
  ∧ get_done_set (store w') "U1" = {["a2"; "b1"]}.
Proof.
  intros gids w'.
  assert (selected_ids_of ab_action ⊆ gids) as Hsel by compute_done.
  split; [exact Hsel|]. split; [compute_done|].
  destruct (C4_group_isolation TASKS_AB RESOURCES "t1" "t2" "U1" ab_action []
              ab_world Hsel) as [Heq _].
  subst w'. rewrite Heq. compute_done.
Defined.

(** A Culture toggle by a user who has no rows yet. *)
Lemma C10_unknown_user_toggle_witness :
  let r := handle_toggle_any_group TASKS RESOURCES "t1" "t2"
             (mkBody "U2" [culture_action]) fresh_world in
  (∀ tid, store fresh_world !! ("U2", tid) = None)
  ∧ get_done_set (store fresh_world) "U2" = ∅
  ∧ r.1 = Some ()
  ∧ get_done_set (store r.2) "U2" = {["coffee_chat_1"]}.
Proof.
  intros r.
  assert (∀ tid, store fresh_world !! ("U2", tid) = None) as Hnone.
  { intros tid. unfold fresh_world. cbn [store].
    rewrite lookup_ensure_user_rows, lookup_empty. cbn [fst snd].
    apply decide_False. intros [? _]. done. }
  split; [exact Hnone|].
  destruct (C10_unknown_user_toggle TASKS RESOURCES "t1" "t2" "U2" culture_action []
              fresh_world Hnone) as (Hcur & Hok & Hdone & _).
  split; [exact Hcur|]. split; [exact Hok|].
  subst r. rewrite Hdone. compute_done.
Defined.

(** * Initialisation and the reach of writes *)

Section Writes.

Context (tasks : list Task) (res : Resources).

Implicit Types (db : DB) (k : string * string) (u tid now : string).

Lemma ensure_user_rows_keeps db now u k r :
  db !! k = Some r → ensure_user_rows tasks now u db !! k = Some r.
Proof. intros Hk. by rewrite lookup_ensure_user_rows, Hk. Qed.

Lemma ensure_user_rows_again db now now' u :
  ensure_user_rows tasks now' u (ensure_user_rows tasks now u db)
  = ensure_user_rows tasks now u db.
Proof.
  apply map_eq. intros k. rewrite !lookup_ensure_user_rows.
  destruct (db !! k); [done|]. by case_decide.
Qed.

Lemma get_done_set_ensure_user_rows db now u u' :
  get_done_set (ensure_user_rows tasks now u db) u' = get_done_set db u'.
Proof.
  apply set_eq. intros tid. rewrite !elem_of_get_done_set.
  setoid_rewrite lookup_ensure_user_rows.
  destruct (db !! (u', tid)) as [r|]; [done|].
  case_decide; split; intros (r & Hr & Hd); simplify_eq/=.
Qed.

(** C5. [ensure_user_rows] called any number of times, at least once,
    leaves the table of the first call; it adds a row (user, id, 0, now)
    exactly at the catalog ids that had no row for the user; every row
    that existed keeps its [done] and [updated_at], so the completed set
    of every user is unchanged. *)
Theorem C5_ensure_user_rows_idempotent db now (nows : list string) u :
  ensure_user_rows_many tasks (now :: nows) u db = ensure_user_rows tasks now u db
  ∧ (∀ k, ensure_user_rows tasks now u db !! k =
          match db !! k with
          | Some r => Some r
          | None =>
              if decide (k.1 = u ∧ k.2 ∈ catalog_ids tasks)
              then Some (mkRow 0 now) else None
          end)
  ∧ (∀ k r, db !! k = Some r → ensure_user_rows tasks now u db !! k = Some r)
  ∧ (∀ u', get_done_set (ensure_user_rows tasks now u db) u' = get_done_set db u').
Proof.
  split; [|split; [|split]].
  - unfold ensure_user_rows_many. simpl.
    induction nows as [|now' nows IH] using rev_ind; [done|].
    by rewrite foldl_snoc, IH, ensure_user_rows_again.
  - intros k. rewrite lookup_ensure_user_rows. destruct (db !! k); [done|].
    apply decide_ext. by rewrite elem_of_catalog_ids.
  - intros k r. apply ensure_user_rows_keeps.
  - intros u'. apply get_done_set_ensure_user_rows.
Qed.

Lemma set_done_bulk_frame db now u (nd : gset string) k :
  k.2 ∉ catalog_ids tasks → set_done_bulk tasks now u nd db !! k = db !! k.
Proof.
  rewrite elem_of_catalog_ids. intros Hk. rewrite lookup_set_done_bulk.
  destruct (db !! k); [|done]. rewrite decide_False; [done|]. tauto.
Qed.

Lemma ensure_user_rows_frame db now u k :
  k.2 ∉ catalog_ids tasks → ensure_user_rows tasks now u db !! k = db !! k.
Proof.
  rewrite elem_of_catalog_ids. intros Hk. rewrite lookup_ensure_user_rows.
  destruct (db !! k); [done|]. rewrite decide_False; [done|]. tauto.
Qed.

Lemma dom_set_done_bulk db now u (nd : gset string) :
  dom (set_done_bulk tasks now u nd db) = dom db.
Proof.
  apply set_eq. intros k. rewrite !elem_of_dom, lookup_set_done_bulk.
  destruct (db !! k); [|done]. case_decide; split; eauto.
Qed.

(** Every handler leaves the rows of non-catalog ids as they are. *)
Lemma handle_frame (e : Event) (w : World) k :
  k.2 ∉ catalog_ids tasks → store (handle tasks res e w).2 !! k = store w !! k.
Proof.
  intros Hk. destruct e as [now u|now u|now1 now2 [u [|a rest]]|now u]; simpl.
  - unfold handle_home_opened, mbind, handler_bind, db_exec.
    rewrite publish_home_run. simpl. by apply ensure_user_rows_frame.
  - unfold handle_team_join, mbind, handler_bind, db_exec, emit.
    rewrite publish_home_run. simpl. by apply ensure_user_rows_frame.
  - done.
  - rewrite handle_toggle_run. simpl. unfold toggled_store.
    rewrite set_done_bulk_frame by done. by apply ensure_user_rows_frame.
  - unfold cmd_onboard, mbind, handler_bind, db_exec, emit.
    rewrite publish_home_run. simpl. by apply ensure_user_rows_frame.
Qed.

Lemma run_frame (es : list Event) (w : World) k :
  k.2 ∉ catalog_ids tasks → store (run tasks res es w) !! k = store w !! k.
Proof.
  intros Hk. unfold run. revert w.
  induction es as [|e es IH]; intros w; simpl; [done|].
  by rewrite IH, handle_frame.
Qed.

(** C9. [set_done_bulk] creates no row and leaves every row of a
    non-catalog id as it is, so a non-catalog id among [new_done_ids] is
    completed afterwards only if it was before; [ensure_user_rows] leaves
    those rows alone too; and over any sequence of events every row that
    was not in the table at the start has a catalog task id. *)
Theorem C9_writes_stay_in_catalog :
  (∀ db now u (nd : gset string), dom (set_done_bulk tasks now u nd db) = dom db)
  ∧ (∀ db now u (nd : gset string) k,
       k.2 ∉ catalog_ids tasks → set_done_bulk tasks now u nd db !! k = db !! k)
  ∧ (∀ db now u (nd : gset string) tid,
       tid ∉ catalog_ids tasks →
       (tid ∈ get_done_set (set_done_bulk tasks now u nd db) u ↔ tid ∈ get_done_set db u))
  ∧ (∀ db now u k,
       k.2 ∉ catalog_ids tasks → ensure_user_rows tasks now u db !! k = db !! k)
  ∧ (∀ (es : list Event) (w : World) k,
       k.2 ∉ catalog_ids tasks → store (run tasks res es w) !! k = store w !! k)
  ∧ (∀ (es : list Event) (w : World) k,
       k ∈ dom (store (run tasks res es w)) → k ∉ dom (store w) →
       k.2 ∈ catalog_ids tasks).
Proof.
  split; [apply dom_set_done_bulk|].
  split; [intros; by apply set_done_bulk_frame|].
  split.
  { intros db now u nd tid Htid. rewrite !elem_of_get_done_set.
    by rewrite set_done_bulk_frame. }
  split; [intros; by apply ensure_user_rows_frame|].
  split; [intros; by apply run_frame|].
  intros es w k Hin Hout.
  destruct (decide (k.2 ∈ catalog_ids tasks)) as [|Hk]; [done|].
  exfalso. apply Hout. apply elem_of_dom. rewrite <- (run_frame es w k Hk).
  by apply elem_of_dom.
Qed.

End Writes.

(** * Rendering *)

Section Rendering.

Context (tasks : list Task) (res : Resources).

Implicit Types (done : gset string) (g : string) (db : DB) (u : string).

Lemma view_checkboxes_home done :
  view_checkboxes (mkView "home" (home_blocks tasks res done))
  = (λ g, checkbox_el done g (group_items tasks g)) <$> group_names_in_order tasks.
Proof.
  unfold view_checkboxes, home_blocks. cbn [blocks].
  rewrite !bind_app. cbn [leading_blocks footer_block mbind list_bind app].
  rewrite app_nil_r.
  induction (group_names_in_order tasks) as [|g gs IH]; [done|].
  rewrite fmap_cons. cbn [concat]. rewrite bind_app, IH. done.
Qed.

Lemma get_done_set_restamp (f : string → string) db u :
  get_done_set (restamp f db) u = get_done_set db u.
Proof.
  apply set_eq. intros tid. rewrite !elem_of_get_done_set. unfold restamp.
  setoid_rewrite lookup_fmap.
  destruct (db !! (u, tid)) as [r|]; simpl; split; intros (r' & Hr & Hd);
    simplify_eq/=; eauto.
Qed.

(** The code's group section is the specification's. *)
Lemma group_blocks_render_section done g :
  group_blocks done g (group_items tasks g) = render_section tasks done g.
Proof.
  unfold group_blocks, render_section, checkbox_el, group_items, option_of.
  by destruct (filter (λ t, id t ∈ done) (filter (λ t, group t = g) tasks)).
Qed.

Lemma home_view_render done :
  home_view tasks res done = Some (render tasks res done).
Proof.
  assert (∀ gs : list string,
            concat ((λ g, group_blocks done g (group_items tasks g)) <$> gs)
            = gs ≫= render_section tasks done) as Hsections.
  { induction gs as [|g gs IH]; [done|].
    rewrite fmap_cons, bind_cons. cbn [concat].
    by rewrite IH, group_blocks_render_section. }
  rewrite home_view_eq. unfold home_blocks, render.
  by rewrite Hsections, group_names_first_occurrence.
Qed.

(** C6. The view is always produced, and its checkbox elements are those
    of the catalog's groups, one per group in the order of first
    occurrence in the catalog. For every catalog task the view holds the
    element of the task's group, offering the group's tasks: when none of
    them is completed the element has no [initial_options] at all, and
    otherwise [initial_options] is present and lists exactly the group's
    completed tasks (label and id, catalog order). No element of the view
    carries an empty list. *)
Theorem C6_initial_options_omitted_when_empty db u :
  let done := get_done_set db u in
  ∃ view,
    build_home_view tasks res db u = Some view
    ∧ Forall2 (λ g el,
         let checked :=
           filter (λ t, id t ∈ done) (filter (λ t, group t = g) tasks) in
         cb_action_id el = "task_toggle_" +:+ lower g
         ∧ (checked = [] → cb_initial_options el = None)
         ∧ (checked ≠ [] →
            cb_initial_options el
              = Some ((λ t, mkOptionObj (label t) (id t)) <$> checked)))
        (first_occurrence_order (group <$> tasks)) (view_checkboxes view)
    ∧ (∀ t, t ∈ tasks →
         let items := filter (λ t', group t' = group t) tasks in
         let checked := filter (λ t', id t' ∈ done) items in
         ∃ el,
           el ∈ view_checkboxes view
           ∧ cb_action_id el = "task_toggle_" +:+ lower (group t)
           ∧ cb_options el = (λ t', mkOptionObj (label t') (id t')) <$> items
           ∧ (checked = [] → cb_initial_options el = None)
           ∧ (checked ≠ [] →
              cb_initial_options el
                = Some ((λ t', mkOptionObj (label t') (id t')) <$> checked)))
    ∧ (∀ el, el ∈ view_checkboxes view → cb_initial_options el ≠ Some []).
Proof.
  intros done. eexists. split; [apply build_home_view_eq|]. fold done.
  rewrite view_checkboxes_home, group_names_first_occurrence.
  split; [|split].
  - apply Forall2_fmap_r, Forall_Forall2_diag, Forall_forall. intros g _.
    unfold checkbox_el, group_items. cbn.
    destruct (filter _ (filter (λ t, group t = g) tasks)) as [|t l]; cbn; done.
  - intros t Ht items checked.
    exists (checkbox_el done (group t) (group_items tasks (group t))). split.
    { apply list_elem_of_fmap. exists (group t). split; [done|].
      apply elem_of_first_occurrence_order, list_elem_of_fmap. eauto. }
    subst items checked. unfold checkbox_el, group_items. cbn.
    destruct (filter _ (filter (λ t', group t' = group t) tasks)) as [|t0 l];
      cbn; done.
  - intros el Hel. apply list_elem_of_fmap in Hel as (g & -> & _).
    unfold checkbox_el. cbn.
    destruct (filter _ (group_items tasks g)); cbn; done.
Qed.

(** C7. The view is a function of the catalog, the resources and the
    completed set, and of nothing else: it is always produced and is the
    document [render] gives for these three. So two invocations on the
    same three inputs give the same document, block for block and text for
    text, whichever user is asked for and whatever else the table holds
    (timestamps, other rows). *)
Theorem C7_view_deterministic db1 db2 u1 u2 :
  get_done_set db1 u1 = get_done_set db2 u2 →
  build_home_view tasks res db1 u1 = build_home_view tasks res db2 u2
  ∧ build_home_view tasks res db1 u1
    = Some (render tasks res (get_done_set db1 u1))
  ∧ build_home_view tasks res db2 u2
    = Some (render tasks res (get_done_set db1 u1)).
Proof.
  intros Hsame. unfold build_home_view.
  rewrite <- Hsame, home_view_render. done.
Qed.

(** C8. The view is the three leading blocks, then one subsection per
    group name, the names taken in the order of their first occurrence in
    the catalog and each once, then the footer. The subsection of a group
    is its header, the name in bold followed by
    (completedInGroup/groupSize), and one actions block whose checkbox
    element offers every task of the group, label and id, in catalog
    order. *)
Theorem C8_group_subsections db u :
  let done := get_done_set db u in
  group_names_in_order tasks = first_occurrence_order (group <$> tasks)
  ∧ NoDup (group_names_in_order tasks)
  ∧ (∀ g, g ∈ group_names_in_order tasks ↔ ∃ t, t ∈ tasks ∧ group t = g)
  ∧ ∃ view sections,
      build_home_view tasks res db u = Some view
      ∧ blocks view = leading_blocks tasks done ++ concat sections ++ [footer_block res]
      ∧ Forall2 (λ g sec,
           let items := filter (λ t, group t = g) tasks in
           let completed_in_group := length (filter (λ t, id t ∈ done) items) in
           ∃ el,
             sec = [ BSection ("*" +:+ g +:+ "* (" +:+ pretty completed_in_group
                               +:+ "/" +:+ pretty (length items) +:+ ")");
                     BActions [el] ]
             ∧ cb_options el = (λ t, mkOptionObj (label t) (id t)) <$> items)
          (group_names_in_order tasks) sections.
Proof.
  intros done.
  split; [apply group_names_first_occurrence|].
  split; [rewrite group_names_first_occurrence; apply NoDup_first_occurrence_order|].
  split; [apply elem_of_group_names_in_order|].
  eexists _, _. split; [apply build_home_view_eq|]. simpl. fold done.
  split; [reflexivity|].
  apply Forall2_fmap_r, Forall_Forall2_diag, Forall_forall. intros g _. simpl.
  eexists. split; reflexivity.
Qed.

End Rendering.

(** The deployed catalog with [nda] completed: four checkbox elements, the
    Paperwork one pre-checks [nda], the other three have no
    [initial_options]. *)
Example initial_options_on_deployed_catalog :
  (λ v : View,
     (λ el : Checkboxes,
        (cb_action_id el,
         (λ l : list OptionObj, opt_value <$> l) <$> cb_initial_options el))
       <$> view_checkboxes v)
    <$> build_home_view TASKS RESOURCES (nda_store "2025-01-01T09:00:00+00:00" "U1") "U1"
  = Some [ ("task_toggle_paperwork", Some ["nda"]);
           ("task_toggle_integration", None);
           ("task_toggle_workflow", None);
           ("task_toggle_culture", None) ].
Proof. vm_compute. reflexivity. Qed.

(** Two tables that differ in user and timestamps but not in the completed
    set render alike, and so does a table with its timestamps rewritten. *)
Lemma C7_view_deterministic_witness :
  let db1 := nda_store "2025-01-01T09:00:00+00:00" "U1" in
  let db2 := nda_store "2025-03-05T17:30:00+00:00" "U2" in
  get_done_set db1 "U1" = get_done_set db2 "U2"
  ∧ db1 ≠ db2
  ∧ build_home_view TASKS RESOURCES db1 "U1" = build_home_view TASKS RESOURCES db2 "U2"
  ∧ build_home_view TASKS RESOURCES (restamp (λ _, "1970-01-01T00:00:00+00:00") db1) "U1"
    = build_home_view TASKS RESOURCES db1 "U1".
Proof.
  intros db1 db2.
  assert (get_done_set db1 "U1" = get_done_set db2 "U2") as Hsame by compute_done.
  split; [exact Hsame|]. split; [compute_done|]. split.
  - exact (proj1 (C7_view_deterministic TASKS RESOURCES db1 db2 "U1" "U2" Hsame)).
  - exact (proj1 (C7_view_deterministic TASKS RESOURCES _ db1 "U1" "U1"
                    (get_done_set_restamp _ db1 "U1"))).
Defined.

(** C3. On the three-task, two-group catalog the completed sets after
    the four steps are {}, {t1}, {t1,t3}, {t3}; the progress texts are
    0/3, 1/3, 2/3 and 1/3 completed, and they are what the progress line of
    the four published views shows after its label. *)
Theorem C3_end_to_end_scenario (l1 l2 l3 : string) (res : Resources)
    (n : nat → string) (absent : bool) :
  let T := TASKS3 l1 l2 l3 in
  let after k :=
    run T res (take k (scenario_events l1 l3 n absent)) (mkWorld ∅ []) in
  let completed k := get_done_set (store (after k)) "u1" in
  group_names_in_order T = ["G1"; "G2"]
  ∧ cb_action_id <$> (published_views (after 1) ≫= view_checkboxes)
      = ["task_toggle_g1"; "task_toggle_g2"]
  ∧ completed 1 = ∅
  ∧ completed 2 = {["t1"]}
  ∧ completed 3 = {["t1"; "t3"]}
  ∧ completed 4 = {["t3"]}
  ∧ progress_text T <$> [completed 1; completed 2; completed 3; completed 4]
      = ["0/3 completed"; "1/3 completed"; "2/3 completed"; "1/3 completed"]
  ∧ progress_line <$> published_views (after 4)
      = [ Some (BSection "*Progress:* 0/3 completed");
          Some (BSection "*Progress:* 1/3 completed");
          Some (BSection "*Progress:* 2/3 completed");
          Some (BSection "*Progress:* 1/3 completed") ].
Proof.
  intros T after completed. subst T after completed.
  destruct absent; repeat split; vm_compute; reflexivity.
Qed.

(** * Further properties: grouping and rendering *)

Section Partition.

Implicit Types (tasks : list Task) (g : string) (done : gset string).

Lemma filter_group_cons_perm tasks g (gs : list string) :
  g ∉ gs →
  filter (λ t, group t ∈ g :: gs) tasks
  ≡ₚ filter (λ t, group t = g) tasks ++ filter (λ t, group t ∈ gs) tasks.
Proof.
  intros Hg. induction tasks as [|t ts IH]; [done|].
  rewrite !filter_cons.
  destruct (decide (group t = g)) as [Heq|Hne].
  - rewrite decide_True by (rewrite Heq; left).
    rewrite decide_False by (rewrite Heq; done).
    simpl. by rewrite IH.
  - destruct (decide (group t ∈ gs)) as [Hin|Hout].
    + rewrite decide_True by (by right).
      rewrite IH. apply Permutation_middle.
    + rewrite decide_False; [done|].
      rewrite elem_of_cons. tauto.
Qed.

Lemma bind_groups_perm tasks (gs : list string) :
  NoDup gs →
  (gs ≫= group_items tasks) ≡ₚ filter (λ t, group t ∈ gs) tasks.
Proof.
  induction 1 as [|g gs Hg Hnd IH].
  - simpl. rewrite filter_none; [done|]. intros t _. apply not_elem_of_nil.
  - rewrite bind_cons, IH, filter_group_cons_perm by done. done.
Qed.

(** The group lists, taken in display order, are a rearrangement of the
    catalog. *)
Lemma group_items_partition tasks :
  (group_names_in_order tasks ≫= group_items tasks) ≡ₚ tasks.
Proof.
  rewrite bind_groups_perm.
  - rewrite filter_all; [done|]. intros t Ht.
    apply elem_of_group_names_in_order. eauto.
  - rewrite group_names_first_occurrence. apply NoDup_first_occurrence_order.
Qed.

Lemma filter_bind_groups {P : Task → Prop} `{!∀ t, Decision (P t)} tasks
    (gs : list string) :
  filter P (gs ≫= group_items tasks) = gs ≫= λ g, filter P (group_items tasks g).
Proof.
  induction gs as [|g gs IH]; [done|].
  by rewrite !bind_cons, filter_app, IH.
Qed.

Lemma length_bind_groups (f : string → list Task) (gs : list string) :
  length (gs ≫= f) = sum_list ((λ g, length (f g)) <$> gs).
Proof.
  induction gs as [|g gs IH]; [done|].
  rewrite bind_cons, length_app, IH. done.
Qed.

(** X1. [tasks_by_group] has exactly the group names of the catalog as
    keys; under a name it holds that group's tasks in catalog order, never
    an empty list; and the lists, taken in display order, are a
    rearrangement of the catalog, so every task is in exactly one of
    them. *)
Theorem tasks_by_group_partitions_catalog tasks :
  (∀ g, is_Some (tasks_by_group tasks !! g) ↔ g ∈ group_names_in_order tasks)
  ∧ (∀ g items, tasks_by_group tasks !! g = Some items →
       items = filter (λ t, group t = g) tasks ∧ items ≠ [])
  ∧ (group_names_in_order tasks ≫= λ g, default [] (tasks_by_group tasks !! g))
      ≡ₚ tasks.
Proof.
  split; [|split].
  - intros g. rewrite lookup_tasks_by_group. unfold is_Some.
    case_decide; naive_solver.
  - intros g items. rewrite lookup_tasks_by_group. case_decide as Hg; [|done].
    intros [= <-]. split; [done|].
    apply elem_of_group_names_in_order in Hg as (t & Ht & Hgt).
    intros Hnil. eapply (filter_nil_not_elem_of _ _ t); eauto.
  - rewrite (list_bind_ext _ (group_items tasks) _ (group_names_in_order tasks));
      [apply group_items_partition| |done].
    intros g.
    rewrite lookup_tasks_by_group. unfold group_items.
    case_decide as Hg; [done|]. simpl. symmetry. apply filter_none.
    intros t Ht Hgt. apply Hg, elem_of_group_names_in_order. eauto.
Qed.

Lemma fmap_bind_groups {B} (h : Task → B) (f : string → list Task)
    (gs : list string) :
  h <$> (gs ≫= f) = gs ≫= λ g, h <$> f g.
Proof.
  induction gs as [|g gs IH]; [done|].
  by rewrite !bind_cons, fmap_app, IH.
Qed.

(** X2. The view is always produced. It has four fixed blocks and two per
    group; its checkbox elements together offer every catalog task exactly
    once, and the pre-checked options together are exactly the catalog
    tasks whose id is in the completed set. *)
Theorem view_offers_every_task_once tasks (res : Resources) (db : DB) (u : string) :
  let done := get_done_set db u in
  ∃ view,
    build_home_view tasks res db u = Some view
    ∧ length (blocks view) = 4 + 2 * length (group_names_in_order tasks)
    ∧ (view_checkboxes view ≫= cb_options)
        ≡ₚ (λ t, mkOptionObj (label t) (id t)) <$> tasks
    ∧ (view_checkboxes view ≫= λ el, default [] (cb_initial_options el))
        ≡ₚ (λ t, mkOptionObj (label t) (id t)) <$> filter (λ t, id t ∈ done) tasks.
Proof.
  intros done. eexists. split; [apply build_home_view_eq|]. fold done.
  split; [|split].
  - cbn [blocks]. unfold home_blocks. rewrite !length_app. cbn [leading_blocks length].
    induction (group_names_in_order tasks) as [|g gs IH]; [done|].
    rewrite fmap_cons. cbn [concat]. rewrite length_app. cbn [group_blocks length].
    lia.
  - rewrite view_checkboxes_home, list_fmap_bind.
    rewrite <- (group_items_partition tasks) at 2.
    rewrite fmap_bind_groups. done.
  - rewrite view_checkboxes_home, list_fmap_bind.
    rewrite <- (group_items_partition tasks) at 2.
    rewrite filter_bind_groups, fmap_bind_groups.
    apply eq_subrelation; [apply _|].
    apply list_bind_ext; [|done]. intros g. unfold compose, checkbox_el. cbn.
    by destruct (filter _ (group_items tasks g)).
Qed.

Lemma size_done_filter tasks done :
  NoDup (id <$> tasks) → done ⊆ catalog_ids tasks →
  size done = length (filter (λ t, id t ∈ done) tasks).
Proof.
  intros Hnd Hsub.
  assert (done = list_to_set (id <$> filter (λ t, id t ∈ done) tasks)) as Hd.
  { apply set_eq. intros tid. rewrite elem_of_list_to_set, list_elem_of_fmap.
    setoid_rewrite list_elem_of_filter. split.
    - intros Hin. pose proof (Hsub _ Hin) as Hc.
      apply elem_of_catalog_ids, list_elem_of_fmap in Hc as (t & -> & Ht). eauto.
    - intros (t & -> & Hin & _). done. }
  rewrite Hd at 1. rewrite size_list_to_set, length_fmap; [done|].
  eapply sublist_NoDup; [exact Hnd|]. apply fmap_sublist, sublist_filter.
Qed.

(** X3. When the catalog ids are distinct and the completed set holds
    catalog ids only, the overall progress count is the sum of the mini
    counts of the group headers, and it does not exceed the total. *)
Theorem progress_is_sum_of_group_counts tasks done :
  NoDup (id <$> tasks) → done ⊆ catalog_ids tasks →
  size done = sum_list (group_done_count tasks done <$> group_names_in_order tasks)
  ∧ (size done ≤ length tasks)%nat.
Proof.
  intros Hnd Hsub. rewrite (size_done_filter tasks) by done. split.
  - rewrite <- (group_items_partition tasks) at 1.
    rewrite filter_bind_groups, length_bind_groups. done.
  - apply length_filter.
Qed.

End Partition.

(** The deployed catalog with [two_done]: 2 = 1 + 0 + 0 + 1. *)
Lemma progress_is_sum_of_group_counts_witness :
  NoDup (id <$> TASKS) ∧ two_done ⊆ catalog_ids TASKS
  ∧ size two_done = sum_list (group_done_count TASKS two_done <$> group_names_in_order TASKS)
  ∧ group_done_count TASKS two_done <$> group_names_in_order TASKS = [1; 0; 0; 1].
Proof.
  assert (NoDup (id <$> TASKS)) as Hnd by compute_done.
  assert (two_done ⊆ catalog_ids TASKS) as Hsub by compute_done.
  split; [exact Hnd|]. split; [exact Hsub|]. split.
  - exact (proj1 (progress_is_sum_of_group_counts TASKS two_done Hnd Hsub)).
  - compute_done.
Defined.

(** * Further properties: the table under the handlers *)

Section Reach.

Context (tasks : list Task) (res : Resources).

Implicit Types (db : DB) (u tid now : string) (w : World) (e : Event).

Lemma handle_home_opened_run now u w :
  handle_home_opened tasks res now u w
  = (Some (),
     let db' := ensure_user_rows tasks now u (store w) in
     mkWorld db'
       (sent w ++ [ViewsPublish u
                     (mkView "home" (home_blocks tasks res (get_done_set db' u)))])).
Proof.
  unfold handle_home_opened, mbind, handler_bind, db_exec.
  by rewrite publish_home_run.
Qed.

Lemma cmd_onboard_run now u w :
  cmd_onboard tasks res now u w
  = (Some (),
     let db' := ensure_user_rows tasks now u (store w) in
     mkWorld db'
       (sent w ++ [AckText "Opening your checklist in the App Home.";
                   ViewsPublish u
                     (mkView "home" (home_blocks tasks res (get_done_set db' u)))])).
Proof.
  unfold cmd_onboard, mbind, handler_bind, db_exec, emit.
  rewrite publish_home_run. cbn [store sent]. by rewrite <- app_assoc.
Qed.

Lemma handle_team_join_run now u w :
  ∃ text,
    handle_team_join tasks res now u w
    = (Some (),
       let db' := ensure_user_rows tasks now u (store w) in
       mkWorld db'
         (sent w ++ [ChatPostMessage u text;
                     ViewsPublish u
                       (mkView "home" (home_blocks tasks res (get_done_set db' u)))])).
Proof.
  eexists. unfold handle_team_join, mbind, handler_bind, db_exec, emit.
  rewrite publish_home_run. cbn [store sent]. by rewrite <- app_assoc.
Qed.

Lemma ensure_user_rows_total db now u tid :
  tid ∈ catalog_ids tasks → is_Some (ensure_user_rows tasks now u db !! (u, tid)).
Proof.
  rewrite elem_of_catalog_ids. intros Htid. rewrite lookup_ensure_user_rows.
  destruct (db !! (u, tid)); [eauto|]. cbn [fst snd].
  rewrite decide_True by done. eauto.
Qed.

(** X4. Opening the home tab, joining the workspace and [/onboard] all
    succeed, leave the table of [ensure_user_rows], change nobody's
    completed set, leave the user a row for every catalog task, and
    publish to that user the view of the completed set as it was; the
    join also sends one direct message to the user, before the view, and
    the command acknowledges first. *)
Theorem plain_handlers_initialise_and_publish now u w :
  let db' := ensure_user_rows tasks now u (store w) in
  let view := mkView "home" (home_blocks tasks res (get_done_set (store w) u)) in
  handle_home_opened tasks res now u w
    = (Some (), mkWorld db' (sent w ++ [ViewsPublish u view]))
  ∧ cmd_onboard tasks res now u w
    = (Some (), mkWorld db'
         (sent w ++ [AckText "Opening your checklist in the App Home.";
                     ViewsPublish u view]))
  ∧ (∃ text, handle_team_join tasks res now u w
       = (Some (), mkWorld db'
            (sent w ++ [ChatPostMessage u text; ViewsPublish u view])))
  ∧ build_home_view tasks res db' u = Some view
  ∧ (∀ u', get_done_set db' u' = get_done_set (store w) u')
  ∧ (∀ tid, tid ∈ catalog_ids tasks → is_Some (db' !! (u, tid))).
Proof.
  intros db' view. subst db' view.
  rewrite handle_home_opened_run, cmd_onboard_run.
  destruct (handle_team_join_run now u w) as [text Hjoin]. rewrite Hjoin.
  cbn zeta. rewrite build_home_view_eq.
  rewrite !(get_done_set_ensure_user_rows tasks).
  repeat split; eauto using ensure_user_rows_total.
  intros u'. apply get_done_set_ensure_user_rows.
Qed.

(** The table an event leaves. *)
Lemma handle_store e w :
  store (handle tasks res e w).2 =
    match e with
    | HomeOpened now u | TeamJoin now u | Onboard now u =>
        ensure_user_rows tasks now u (store w)
    | Toggle now1 now2 body =>
        match actions body with
        | [] => store w
        | a :: _ => toggled_store tasks now1 now2 (body_user body) a (store w)
        end
    end.
Proof.
  destruct e as [now u|now u|now1 now2 [u [|a rest]]|now u]; cbn [handle].
  - by rewrite handle_home_opened_run.
  - destruct (handle_team_join_run now u w) as [text ->]. done.
  - done.
  - by rewrite handle_toggle_run.
  - by rewrite cmd_onboard_run.
Qed.

Lemma store_ok_ensure_user_rows db now u :
  store_ok tasks db → store_ok tasks (ensure_user_rows tasks now u db).
Proof.
  intros Hok u' tid r. rewrite lookup_ensure_user_rows. cbn [fst snd].
  destruct (db !! (u', tid)) as [r0|] eqn:Hr0.
  - intros [= <-]. destruct (Hok _ _ _ Hr0) as (Hc & Hd & Hall).
    split; [done|]. split; [done|]. intros tid' Htid'.
    destruct (Hall _ Htid') as [r' Hr'].
    exists r'. by apply ensure_user_rows_keeps.
  - case_decide as Hk; [|done]. destruct Hk as [-> Htid]. intros [= <-].
    split; [by apply elem_of_catalog_ids|]. split; [by left|].
    apply ensure_user_rows_total.
Qed.

Lemma store_ok_set_done_bulk db now u (nd : gset string) :
  store_ok tasks db → store_ok tasks (set_done_bulk tasks now u nd db).
Proof.
  intros Hok u' tid r. rewrite lookup_set_done_bulk. cbn [fst snd].
  destruct (db !! (u', tid)) as [r0|] eqn:Hr0; [|done].
  destruct (Hok _ _ _ Hr0) as (Hc & Hd & Hall). intros Hr.
  split; [done|]. split.
  - case_decide; simplify_eq; [|done]. cbn. case_decide; auto.
  - intros tid' Htid'. apply elem_of_dom. rewrite dom_set_done_bulk.
    apply elem_of_dom. auto.
Qed.

Lemma store_ok_handle e w :
  store_ok tasks (store w) → store_ok tasks (store (handle tasks res e w).2).
Proof.
  intros Hok. rewrite handle_store.
  destruct e as [now u|now u|now1 now2 [u [|a rest]]|now u]; cbn [actions body_user];
    auto using store_ok_ensure_user_rows.
  unfold toggled_store. by apply store_ok_set_done_bulk, store_ok_ensure_user_rows.
Qed.

Lemma get_done_set_ok db u :
  store_ok tasks db → get_done_set db u ⊆ catalog_ids tasks.
Proof.
  intros Hok tid. rewrite elem_of_get_done_set. intros (r & Hr & _).
  by destruct (Hok _ _ _ Hr).
Qed.

(** X5. The handlers keep the table well formed: if every row has a
    catalog id, a flag 0 or 1, and its user a row for every catalog task,
    the same holds after any sequence of events. Then every completed set
    lies in the catalog, and with distinct catalog ids the progress count
    never exceeds the total. *)
Theorem handlers_keep_store_ok (es : list Event) w :
  store_ok tasks (store w) →
  store_ok tasks (store (run tasks res es w))
  ∧ (∀ u, get_done_set (store (run tasks res es w)) u ⊆ catalog_ids tasks)
  ∧ (NoDup (id <$> tasks) →
     ∀ u, (size (get_done_set (store (run tasks res es w)) u) ≤ length tasks)%nat).
Proof.
  intros Hok.
  assert (store_ok tasks (store (run tasks res es w))) as Hrun.
  { unfold run. revert w Hok. induction es as [|e es IH]; intros w Hok; [done|].
    cbn [foldl]. by apply IH, store_ok_handle. }
  split; [done|]. split; [intros u; by apply get_done_set_ok|].
  intros Hnd u. rewrite (size_done_filter tasks) by auto using get_done_set_ok.
  apply length_filter.
Qed.

Lemma dom_ensure_user_rows db now u :
  dom db ⊆ dom (ensure_user_rows tasks now u db).
Proof.
  intros k. rewrite !elem_of_dom. intros [r Hr]. exists r.
  by apply ensure_user_rows_keeps.
Qed.

(** X6. No event ever removes a row: the keys of the table only grow. *)
Theorem handlers_never_delete_rows (es : list Event) w :
  dom (store w) ⊆ dom (store (run tasks res es w)).
Proof.
  unfold run. revert w. induction es as [|e es IH]; intros w; [done|].
  cbn [foldl]. etrans; [|apply IH]. rewrite handle_store.
  destruct e as [now u|now u|now1 now2 [u [|a rest]]|now u]; cbn [actions body_user];
    try apply dom_ensure_user_rows; [done|].
  unfold toggled_store. rewrite dom_set_done_bulk. apply dom_ensure_user_rows.
Qed.

End Reach.

(** The scenario of the three-task catalog starts from an empty table,
    which is well formed. *)
Lemma handlers_keep_store_ok_witness :
  let T := TASKS3 "one" "two" "three" in
  let w := run T RESOURCES (scenario_events "one" "three" (λ _, "2025-01-01T09:00:00+00:00") false)
             (mkWorld ∅ []) in
  store_ok T ∅
  ∧ store_ok T (store w)
  ∧ (size (get_done_set (store w) "u1") ≤ length T)%nat.
Proof.
  intros T w.
  assert (store_ok T ∅) as Hok.
  { intros u tid r Hr. by rewrite lookup_empty in Hr. }
  split; [exact Hok|].
  destruct (handlers_keep_store_ok T RESOURCES
              (scenario_events "one" "three" (λ _, "2025-01-01T09:00:00+00:00") false)
              (mkWorld ∅ []) Hok) as (Hrun & _ & Hle).
  split; [exact Hrun|]. apply Hle. compute_done.
Defined.

(** * Further properties: users, writes and toggles *)

Section Compose.

Context (tasks : list Task) (res : Resources).

Implicit Types (db : DB) (u tid now : string) (a b : Action) (w : World) (e : Event).

Lemma ensure_user_rows_other db now u u' tid :
  u' ≠ u → ensure_user_rows tasks now u db !! (u', tid) = db !! (u', tid).
Proof.
  intros Hne. rewrite lookup_ensure_user_rows. destruct (db !! (u', tid)); [done|].
  rewrite decide_False; [done|]. cbn. tauto.
Qed.

Lemma set_done_bulk_other db now u (nd : gset string) u' tid :
  u' ≠ u → set_done_bulk tasks now u nd db !! (u', tid) = db !! (u', tid).
Proof.
  intros Hne. rewrite lookup_set_done_bulk. destruct (db !! (u', tid)); [|done].
  rewrite decide_False; [done|]. cbn. tauto.
Qed.

Lemma handle_sent e w :
  ∃ new, sent (handle tasks res e w).2 = sent w ++ new
         ∧ ∀ o x, o ∈ new → outbound_user o = Some x → x = event_user e.
Proof.
  destruct e as [now u|now u|now1 now2 [u [|a rest]]|now u]; cbn [handle event_user body_user].
  - rewrite handle_home_opened_run. eexists. split; [done|].
    intros o x Ho. apply list_elem_of_singleton in Ho as ->. by intros [= <-].
  - destruct (handle_team_join_run tasks res now u w) as [text ->].
    eexists. split; [done|]. intros o x Ho.
    apply elem_of_cons in Ho as [->|Ho]; [by intros [= <-]|].
    apply list_elem_of_singleton in Ho as ->. by intros [= <-].
  - rewrite handle_toggle_no_action. eexists. split; [done|].
    intros o x Ho. apply list_elem_of_singleton in Ho as ->. done.
  - rewrite handle_toggle_run. eexists. split; [done|]. intros o x Ho.
    apply elem_of_cons in Ho as [->|Ho]; [done|].
    apply list_elem_of_singleton in Ho as ->. by intros [= <-].
  - rewrite cmd_onboard_run. eexists. split; [done|]. intros o x Ho.
    apply elem_of_cons in Ho as [->|Ho]; [done|].
    apply list_elem_of_singleton in Ho as ->. by intros [= <-].
Qed.

Lemma handle_rows_other e w u' tid :
  u' ≠ event_user e →
  store (handle tasks res e w).2 !! (u', tid) = store w !! (u', tid).
Proof.
  intros Hne. rewrite handle_store.
  destruct e as [now u|now u|now1 now2 [u [|a rest]]|now u];
    cbn [event_user body_user actions] in *;
    try (by apply ensure_user_rows_other); [done|].
  unfold toggled_store.
  by rewrite set_done_bulk_other, ensure_user_rows_other.
Qed.

(** X7. An event touches its own user only: the rows and the completed
    set of every other user are as before, and whatever the handler sends
    through the client is addressed to the event's user. *)
Theorem handlers_touch_one_user e w u' :
  u' ≠ event_user e →
  (∀ tid, store (handle tasks res e w).2 !! (u', tid) = store w !! (u', tid))
  ∧ get_done_set (store (handle tasks res e w).2) u' = get_done_set (store w) u'
  ∧ ∃ new, sent (handle tasks res e w).2 = sent w ++ new
           ∧ ∀ o x, o ∈ new → outbound_user o = Some x → x ≠ u'.
Proof.
  intros Hne.
  pose proof (λ tid, handle_rows_other e w u' tid Hne) as Hrows.
  split; [exact Hrows|]. split.
  - apply set_eq. intros tid. rewrite !elem_of_get_done_set.
    by setoid_rewrite Hrows.
  - destruct (handle_sent e w) as (new & Hsent & Hto).
    exists new. split; [done|]. intros o x Ho Hx ->.
    apply Hne. eauto.
Qed.

(** X8. [set_done_bulk] for a user who has no row of a catalog task
    changes nothing: the ids it is given are not stored and the completed
    set stays as it was. *)
Theorem set_done_bulk_without_rows db now u (nd : gset string) :
  (∀ tid, tid ∈ catalog_ids tasks → db !! (u, tid) = None) →
  set_done_bulk tasks now u nd db = db
  ∧ ∀ u', get_done_set (set_done_bulk tasks now u nd db) u' = get_done_set db u'.
Proof.
  intros Hnone.
  assert (set_done_bulk tasks now u nd db = db) as Heq.
  { apply map_eq. intros [u' tid]. rewrite lookup_set_done_bulk. cbn [fst snd].
    destruct (db !! (u', tid)) as [r|] eqn:Hr; [|done].
    rewrite decide_False; [done|]. intros [-> Htid].
    apply elem_of_catalog_ids in Htid. rewrite (Hnone _ Htid) in Hr. done. }
  split; [exact Heq|]. intros u'. by rewrite Heq.
Qed.

(** X9. [set_done_bulk] is a full overwrite for the user: a second call
    makes the first one invisible, and every catalog row the user has gets
    the flag of the given set and the new timestamp, whether or not its
    flag changes. *)
Theorem set_done_bulk_overwrites db (now1 now2 : string) u (nd1 nd2 : gset string) :
  set_done_bulk tasks now2 u nd2 (set_done_bulk tasks now1 u nd1 db)
    = set_done_bulk tasks now2 u nd2 db
  ∧ ∀ tid, tid ∈ catalog_ids tasks → is_Some (db !! (u, tid)) →
      set_done_bulk tasks now2 u nd2 db !! (u, tid)
      = Some (mkRow (if decide (tid ∈ nd2) then 1 else 0) now2).
Proof.
  split.
  - apply map_eq. intros [u' tid]. rewrite !lookup_set_done_bulk. cbn [fst snd].
    destruct (db !! (u', tid)) as [r|]; [|done]. by repeat case_decide.
  - intros tid Htid [r Hr]. apply elem_of_catalog_ids in Htid.
    rewrite lookup_set_done_bulk, Hr. cbn [fst snd]. by rewrite decide_True.
Qed.

(** X10. Two toggles of one user whose selections stay clear of each
    other's group can be handled in either order: both orders leave the
    completed set (currentDone - (groupA ∪ groupB)) ∪ ((selectedA ∪
    selectedB) ∩ catalogTaskIds). *)
Theorem toggles_commute (n1 n2 n3 n4 : string) u a b w :
  let ga := group_task_ids_of tasks (group_key_of a) in
  let gb := group_task_ids_of tasks (group_key_of b) in
  let ta := Toggle n1 n2 (mkBody u [a]) in
  let tb := Toggle n3 n4 (mkBody u [b]) in
  selected_ids_of a ## gb → selected_ids_of b ## ga →
  get_done_set (store (run tasks res [ta; tb] w)) u
    = (get_done_set (store w) u ∖ (ga ∪ gb))
      ∪ ((selected_ids_of a ∪ selected_ids_of b) ∩ catalog_ids tasks)
  ∧ get_done_set (store (run tasks res [tb; ta] w)) u
    = get_done_set (store (run tasks res [ta; tb] w)) u.
Proof.
  intros ga gb ta tb Hab Hba. subst ta tb. unfold run. cbn [foldl handle].
  rewrite !handle_toggle_run. cbn [snd store]. rewrite !(toggled_done_set tasks).
  fold ga gb. split; apply set_eq; intros tid; set_solver.
Qed.

(** X11. Handling the same toggle again changes nothing in the completed
    set; and a toggle whose [selected_options] is absent or empty clears
    the toggled group and nothing else. *)
Theorem toggle_again_and_clear (n1 n2 n3 n4 : string) u a w :
  let ga := group_task_ids_of tasks (group_key_of a) in
  let t1 := Toggle n1 n2 (mkBody u [a]) in
  let t2 := Toggle n3 n4 (mkBody u [a]) in
  get_done_set (store (run tasks res [t1; t2] w)) u
    = get_done_set (store (run tasks res [t1] w)) u
  ∧ (default [] (selected_options a) = [] →
     get_done_set (store (run tasks res [t1] w)) u = get_done_set (store w) u ∖ ga).
Proof.
  intros ga t1 t2. subst t1 t2. unfold run. cbn [foldl handle].
  rewrite !handle_toggle_run. cbn [snd store]. rewrite !(toggled_done_set tasks).
  fold ga. split.
  - apply set_eq. intros tid. set_solver.
  - intros Hsel. unfold selected_ids_of. rewrite Hsel. cbn.
    apply set_eq. intros tid. set_solver.
Qed.

(** X13. The toggle handler raises exactly when the payload has no
    action; then the table is untouched and only the acknowledgement was
    sent. The acknowledgement always comes first, and of several actions
    only the first one is read. *)
Theorem toggle_raises_only_without_action (n1 n2 : string) (body : Body) w :
  let r := handle_toggle_any_group tasks res n1 n2 body w in
  (r.1 = None ↔ actions body = [])
  ∧ (actions body = [] → r.2 = mkWorld (store w) (sent w ++ [Ack]))
  ∧ (∃ rest, sent r.2 = sent w ++ Ack :: rest)
  ∧ (∀ a more, actions body = a :: more →
       r = handle_toggle_any_group tasks res n1 n2 (mkBody (body_user body) [a]) w).
Proof.
  destruct body as [u [|a more]]; cbn [actions body_user] in *.
  - rewrite handle_toggle_no_action. cbn. repeat split; eauto; done.
  - rewrite handle_toggle_run. cbn. repeat split; try done; eauto.
    intros a' more' [= <- <-]. by rewrite handle_toggle_run.
Qed.

(** X14. Write then read: for a user who has a row for every catalog
    task and no completed row outside the catalog, [get_done_set] after
    [set_done_bulk] returns the given set cut down to the catalog, hence
    the given set itself when that holds catalog ids only. *)
Theorem set_done_bulk_then_get_done_set db now u (nd : gset string) :
  (∀ tid, tid ∈ catalog_ids tasks → is_Some (db !! (u, tid))) →
  get_done_set db u ⊆ catalog_ids tasks →
  get_done_set (set_done_bulk tasks now u nd db) u = nd ∩ catalog_ids tasks
  ∧ (nd ⊆ catalog_ids tasks → get_done_set (set_done_bulk tasks now u nd db) u = nd).
Proof.
  intros Hall Hin.
  assert (get_done_set (set_done_bulk tasks now u nd db) u = nd ∩ catalog_ids tasks)
    as Heq.
  { apply set_eq. intros tid. rewrite elem_of_intersection, elem_of_get_done_set.
    setoid_rewrite lookup_set_done_bulk. cbn [fst snd].
    destruct (decide (tid ∈ catalog_ids tasks)) as [Hc|Hc].
    - destruct (Hall _ Hc) as [r0 ->]. apply elem_of_catalog_ids in Hc.
      rewrite decide_True by done.
      destruct (decide (tid ∈ nd)) as [Hn|Hn]; split.
      + intros _. split; [done|]. by apply elem_of_catalog_ids.
      + intros _. eexists. split; done.
      + intros (r & [= <-] & Hd). done.
      + intros [? _]. done.
    - split; [|tauto]. intros (r & Hr & Hd). exfalso. apply Hc, Hin.
      apply elem_of_get_done_set. exists r. split; [|done].
      destruct (db !! (u, tid)) as [r0|]; [|done].
      rewrite decide_False in Hr; [done|].
      rewrite <- elem_of_catalog_ids. tauto. }
  split; [exact Heq|]. intros Hsub. rewrite Heq. set_solver.
Qed.

(** X15. An event that succeeds publishes exactly one view, last, to its
    own user, and that view is the rendering of the table the event
    leaves. *)
Theorem published_view_is_current e w :
  (handle tasks res e w).1 = Some () →
  ∃ before view,
    sent (handle tasks res e w).2
      = sent w ++ before ++ [ViewsPublish (event_user e) view]
    ∧ build_home_view tasks res (store (handle tasks res e w).2) (event_user e)
      = Some view
    ∧ ∀ o, o ∈ before → ∀ x v, o ≠ ViewsPublish x v.
Proof.
  destruct e as [now u|now u|now1 now2 [u [|a rest]]|now u];
    cbn [handle event_user body_user].
  - rewrite handle_home_opened_run. intros _. eexists [], _.
    cbn. split; [done|]. split; [apply build_home_view_eq|].
    intros o Ho. by apply elem_of_nil in Ho.
  - destruct (handle_team_join_run tasks res now u w) as [text ->]. intros _.
    eexists [ChatPostMessage u text], _.
    cbn. split; [done|]. split; [apply build_home_view_eq|].
    intros o Ho. apply list_elem_of_singleton in Ho as ->. done.
  - rewrite handle_toggle_no_action. done.
  - rewrite handle_toggle_run. intros _. eexists [Ack], _.
    cbn. split; [done|]. split; [apply build_home_view_eq|].
    intros o Ho. apply list_elem_of_singleton in Ho as ->. done.
  - rewrite cmd_onboard_run. intros _. eexists [_], _.
    cbn. split; [done|]. split; [apply build_home_view_eq|].
    intros o Ho. apply list_elem_of_singleton in Ho as ->. done.
Qed.



End Compose.

(** A Culture toggle by U2 leaves U1 alone. *)
Lemma handlers_touch_one_user_witness :
  let e := Toggle "2025-01-02T10:00:00+00:00" "2025-01-02T10:00:01+00:00"
             (mkBody "U2" [culture_action]) in
  "U1" ≠ event_user e
  ∧ get_done_set (store (handle TASKS RESOURCES e fresh_world).2) "U1"
    = get_done_set (store fresh_world) "U1".
Proof.
  intros e.
  assert ("U1" ≠ event_user e) as Hne by compute_done.
  split; [exact Hne|].
  exact (proj1 (proj2 (handlers_touch_one_user TASKS RESOURCES e fresh_world "U1" Hne))).
Defined.

(** Writing for U2, who has no rows, into a table that holds U1's rows. *)
Lemma set_done_bulk_without_rows_witness :
  (∀ tid, tid ∈ catalog_ids TASKS → store fresh_world !! ("U2", tid) = None)
  ∧ set_done_bulk TASKS "2025-01-02T10:00:00+00:00" "U2" two_done (store fresh_world)
    = store fresh_world.
Proof.
  assert (∀ tid, tid ∈ catalog_ids TASKS → store fresh_world !! ("U2", tid) = None)
    as Hnone.
  { intros tid _. unfold fresh_world. cbn [store].
    rewrite lookup_ensure_user_rows, lookup_empty. cbn [fst snd].
    apply decide_False. intros [? _]. done. }
  split; [exact Hnone|].
  exact (proj1 (set_done_bulk_without_rows TASKS (store fresh_world)
                  "2025-01-02T10:00:00+00:00" "U2" two_done Hnone)).
Defined.

(** A Paperwork toggle and a Culture toggle, in both orders. *)
Lemma toggles_commute_witness :
  let ga := group_task_ids_of TASKS (group_key_of paperwork_action) in
  let gb := group_task_ids_of TASKS (group_key_of culture_action) in
  let ta := Toggle "n1" "n2" (mkBody "U1" [paperwork_action]) in
  let tb := Toggle "n3" "n4" (mkBody "U1" [culture_action]) in
  selected_ids_of paperwork_action ## gb
  ∧ selected_ids_of culture_action ## ga
  ∧ get_done_set (store (run TASKS RESOURCES [tb; ta] fresh_world)) "U1"
    = get_done_set (store (run TASKS RESOURCES [ta; tb] fresh_world)) "U1".
Proof.
  intros ga gb ta tb.
  assert (selected_ids_of paperwork_action ## gb) as Hab by compute_done.
  assert (selected_ids_of culture_action ## ga) as Hba by compute_done.
  split; [exact Hab|]. split; [exact Hba|].
  exact (proj2 (toggles_commute TASKS RESOURCES "n1" "n2" "n3" "n4" "U1"
                  paperwork_action culture_action fresh_world Hab Hba)).
Defined.

(** * Further properties: the action id *)

Section ActionId.

Implicit Types (tasks : list Task) (g p s : string).

Lemma strip_prefix_app p s : strip_prefix p (p +:+ s) = Some s.
Proof.
  induction p as [|c p IH]; [done|].
  change (strip_prefix (String c p) (String c p +:+ s))
    with (if decide (c = c) then strip_prefix p (p +:+ s) else None).
  by rewrite decide_True.
Qed.

Lemma filter_ext_in {A} (P Q : A → Prop) `{!∀ x, Decision (P x)}
    `{!∀ x, Decision (Q x)} (l : list A) :
  (∀ x, x ∈ l → (P x ↔ Q x)) → filter P l = filter Q l.
Proof.
  induction l as [|x l IH]; intros Hext; [done|].
  rewrite !filter_cons, IH by (intros y Hy; apply Hext; by right).
  apply decide_ext, Hext. left.
Qed.

Lemma replace_first_unfold (old new s : string) :
  replace_first old new s =
    match strip_prefix old s with
    | Some rest => new +:+ rest
    | None =>
        match s with
        | EmptyString => EmptyString
        | String c s' => String c (replace_first old new s')
        end
    end.
Proof. by destruct s. Qed.

Lemma replace_first_at_start (old new s : string) :
  replace_first old new (old +:+ s) = new +:+ s.
Proof. by rewrite replace_first_unfold, strip_prefix_app. Qed.

(** X12. The action id a rendered checkbox element carries leads the
    toggle handler back to the element's group: the key read from it is
    the lowered group name, every task of the group is among the ids it
    resolves to, and these are the group's ids exactly when no other group
    of the catalog has the same lowered name. Any action id that starts
    with task_toggle_ yields the rest of the id as key. *)
Theorem rendered_action_id_round_trip tasks (done : gset string) g
    (items : list Task) (sel : option (list OptionObj)) :
  let a := mkAction (cb_action_id (checkbox_el done g items)) sel in
  group_key_of a = lower g
  ∧ (∀ t, t ∈ group_items tasks g → id t ∈ group_task_ids_of tasks (group_key_of a))
  ∧ ((∀ t, t ∈ tasks → lower (group t) = lower g → group t = g) →
     group_task_ids_of tasks (group_key_of a)
     = list_to_set (id <$> group_items tasks g))
  ∧ (∀ key, group_key_of (mkAction ("task_toggle_" +:+ key) sel) = key).
Proof.
  intros a.
  assert (∀ key, group_key_of (mkAction ("task_toggle_" +:+ key) sel) = key) as Hkey.
  { intros key. unfold group_key_of. cbn [action_id].
    by rewrite replace_first_at_start. }
  assert (group_key_of a = lower g) as Ha by apply Hkey.
  split; [exact Ha|]. rewrite Ha. split; [|split; [|exact Hkey]].
  - intros t Ht. apply list_elem_of_filter in Ht as [Hg Ht].
    apply elem_of_group_task_ids. exists t. by rewrite Hg.
  - intros Hinj. unfold group_task_ids_of, group_items. do 2 f_equal.
    apply filter_ext_in. intros t Ht. split; [by apply Hinj|by intros ->].
Qed.

End ActionId.

(** U1 has all rows and nothing completed; [two_done] is written and read
    back. *)
Lemma set_done_bulk_then_get_done_set_witness :
  (∀ tid, tid ∈ catalog_ids TASKS → is_Some (store fresh_world !! ("U1", tid)))
  ∧ get_done_set (store fresh_world) "U1" ⊆ catalog_ids TASKS
  ∧ get_done_set (set_done_bulk TASKS "2025-01-02T10:00:00+00:00" "U1" two_done
                    (store fresh_world)) "U1" = two_done.
Proof.
  assert (∀ tid, tid ∈ catalog_ids TASKS → is_Some (store fresh_world !! ("U1", tid)))
    as Hall.
  { intros tid Htid. unfold fresh_world. cbn [store].
    by apply ensure_user_rows_total. }
  assert (get_done_set (store fresh_world) "U1" ⊆ catalog_ids TASKS) as Hin
    by compute_done.
  split; [exact Hall|]. split; [exact Hin|].
  apply (set_done_bulk_then_get_done_set TASKS (store fresh_world)
           "2025-01-02T10:00:00+00:00" "U1" two_done Hall Hin).
  compute_done.
Defined.

(** Opening the home tab succeeds and publishes the current view. *)
Lemma published_view_is_current_witness :
  let e := HomeOpened "2025-01-02T10:00:00+00:00" "U1" in
  (handle TASKS RESOURCES e fresh_world).1 = Some ()
  ∧ ∃ view,
      last (sent (handle TASKS RESOURCES e fresh_world).2) = Some (ViewsPublish "U1" view)
      ∧ build_home_view TASKS RESOURCES (store (handle TASKS RESOURCES e fresh_world).2)
          "U1" = Some view.
Proof.
  intros e.
  assert ((handle TASKS RESOURCES e fresh_world).1 = Some ()) as Hok by compute_done.
  split; [exact Hok|].
  destruct (published_view_is_current TASKS RESOURCES e fresh_world Hok)
    as (before & view & Hsent & Hview & _).
  exists view. split; [|exact Hview].
  rewrite Hsent, app_assoc. apply last_snoc.
Defined.

